(** * mpm::eventbus -- a shallow embedding of the event bus and of the
    Left-Right container it is built on.

    The development follows the headers of the library:
    - [mpm/typelist.hpp]: [null_t], [typelist], [for_each_type];
    - [mpm/polymorphic_event.hpp]: [detail::event], [polymorphic_event];
    - [mpm/leftright.hpp]: [atomic_reader_registry], [basic_leftright]
      with [observe], [modify], [toggle_reader_registry];
    - [mpm/eventbus.hpp]: [type_erased_subscriber], [cookie],
      [dispatch_typelist], [deliver], [adapted_event], [basic_eventbus]
      with [publish], [subscribe], [unsubscribe].

    Execution is sequential: one thread runs the operations one after the
    other, so a spin loop of a writer either falls through at once or never
    ends.  A functor handed to [observe] is a state transformer on the
    container, which lets it re-enter [observe] and lets it stand for a store
    to the registry index made by a writer while the reader is inside.

    A handler is a value of an abstract type: calling it is recorded, what it
    does is not modelled.  The address that [std::allocate_shared] returns
    for a new subscriber is an input of [subscribe]. *)

From Stdlib Require Import ZArith Lia.
From stdpp Require Import base tactics decidable option list strings.

(** ** What the C++ implementation leaves to the platform *)

(** [uint_fast32_bits] is the width of [std::uint_fast32_t] (the counter of a
    reader registry).  [this_thread_hash] is what the hasher of a
    distributed registry makes of [std::this_thread::get_id()] for the one
    thread that runs.  [emplace_slot] is the place
    [std::unordered_multimap::emplace] gives to a new element among the
    elements with an equivalent key that are already stored: it receives the
    identities of that group in iteration order and answers the index in
    front of which the new element goes (an index past the end means behind
    all of them).  The C++ standard fixes none of them. *)
Class Platform := {
  uint_fast32_bits : Z;
  this_thread_hash : nat;
  emplace_slot : list Z → nat
}.

(** libstdc++ links a new node in front of the first equivalent one. *)
Definition libstdcxx : Platform :=
  {| uint_fast32_bits := 64; this_thread_hash := 5; emplace_slot := λ _, 0 |}.

(** libc++ links a new node behind the last equivalent one. *)
Definition libcxx : Platform :=
  {| uint_fast32_bits := 32;
     this_thread_hash := 3;
     emplace_slot := λ group, length group |}.

(** ** Types and their run-time identity *)

(** [std::type_index(typeid(X))] for the types the bus meets. *)
Inductive type_index : Type :=
  | ti_nullptr_t                                  (* std::nullptr_t *)
  | ti_event                                      (* mpm::detail::event *)
  | ti_class (name : string)                      (* a class declared by the user *)
  | ti_polymorphic_event (T Base : type_index)    (* polymorphic_event<T, Base> *)
  | ti_adapted_event (Base : type_index).         (* detail::adapted_event<Base> *)

Global Instance type_index_eq_dec : EqDecision type_index.
Proof. solve_decision. Defined.

(** *** mpm/typelist.hpp *)

(** [typelist<Head, Tail>], ended by [null_t]. *)
Inductive typelist : Type :=
  | null_t
  | typelist_cons (Head : type_index) (Tail : typelist).

(** [detail::for_each_helper<F, TL>]: call [f.operator()<head>()], then go on
    with the tail; the specialisation for [null_t] does nothing.  [W] is the
    state the calls of [f] act on. *)
Fixpoint for_each_helper {W : Type} (f : type_index → W → W)
    (TL : typelist) (w : W) : W :=
  match TL with
  | null_t => w
  | typelist_cons Head Tail => for_each_helper f Tail (f Head w)
  end.

Definition for_each_type {W : Type} (TL : typelist)
    (f : type_index → W → W) (w : W) : W :=
  for_each_helper f TL w.

(** The heads of a typelist, in order. *)
Fixpoint heads (TL : typelist) : list type_index :=
  match TL with
  | null_t => []
  | typelist_cons Head Tail => Head :: heads Tail
  end.

(** *** mpm/polymorphic_event.hpp and the class declarations of a program *)

(** A class type as its declaration: the root [detail::event], an instance
    [polymorphic_event<T, Base>], a class declared by the user (with no base
    or with one public base, and no [dispatch_as] member of its own), and the
    adapter [detail::adapted_event<Base>] of eventbus.hpp.  An event type of
    the test suite, [struct derived_event : polymorphic_event<derived_event,
    base_event>], is [derived "derived_event" (polymorphic_event (ti_class
    "derived_event") base_event)].  The first argument of
    [polymorphic_event] is any type: nothing makes it the class that is
    being declared. *)
Inductive class_type : Type :=
  | event
  | polymorphic_event (T : type_index) (Base : class_type)
  | plain (name : string)
  | derived (name : string) (Base : class_type)
  | adapted_event (Base : class_type).

Fixpoint typeid (C : class_type) : type_index :=
  match C with
  | event => ti_event
  | polymorphic_event T Base => ti_polymorphic_event T (typeid Base)
  | plain name => ti_class name
  | derived name _ => ti_class name
  | adapted_event Base => ti_adapted_event (typeid Base)
  end.

(** The member type [C::dispatch_as], found by member lookup through the
    bases; [None] when there is no such member.
    - [event]: [using dispatch_as = null_t];
    - [polymorphic_event<T, Base>]:
      [using dispatch_as = typelist<T, typename Base::dispatch_as>];
    - [adapted_event<Base>]: [using dispatch_as = typelist<Base>]. *)
Fixpoint dispatch_as (C : class_type) : option typelist :=
  match C with
  | event => Some null_t
  | polymorphic_event T Base => typelist_cons T <$> dispatch_as Base
  | plain _ => None
  | derived _ Base => dispatch_as Base
  | adapted_event Base => Some (typelist_cons (typeid Base) null_t)
  end.

(** [std::is_base_of<B, D>], with [B] given by its identity: [D] is [B] or
    [B] is among the bases of [D].  [adapted_event<Base>] derives from
    [detail::event] and from [Base]. *)
Fixpoint is_base_of (B : type_index) (D : class_type) : bool :=
  bool_decide (typeid D = B) ||
  match D with
  | event | plain _ => false
  | polymorphic_event _ Base | derived _ Base => is_base_of B Base
  | adapted_event Base => bool_decide (B = ti_event) || is_base_of B Base
  end.

(** A published object, seen through a [const detail::event&]: what the bus
    can learn about it at run time is its dynamic type. *)
Record object := Object { dynamic_type : class_type }.

(** [dynamic_cast<const E*>(&e) != nullptr]. *)
Definition dynamic_cast (E : type_index) (e : object) : bool :=
  is_base_of E (dynamic_type e).

(** [detail::dispatch_typelist<E>::type]: [E::dispatch_as] when [E] is its
    head, [typelist<E, E::dispatch_as>] otherwise.  The instantiation is
    ill-formed ([None]) when [E::dispatch_as] is missing or is [null_t],
    which has no member [head]. *)
Definition dispatch_typelist (E : class_type) : option typelist :=
  match dispatch_as E with
  | Some (typelist_cons Head Tail) =>
      Some (if decide (typeid E = Head)
            then typelist_cons Head Tail
            else typelist_cons (typeid E) (typelist_cons Head Tail))
  | Some null_t => None
  | None => None
  end.

(** ** mpm/leftright.hpp *)

(** The ReaderRegistry concept: a default-constructible type with
    [arrive()], [depart()] and [empty()]. *)
Class ReaderRegistry (R : Type) := {
  registry_init : R;
  arrive : R → R;
  depart : R → R;
  empty : R → bool
}.

(** [atomic_reader_registry]: one [std::atomic_uint_fast32_t]. *)
Record atomic_reader_registry := Registry { m_count : Z }.

(** [distributed_atomic_reader_registry<N, Hasher>::counter] and the
    registry itself, an array of [N] counters. *)
Record counter := Counter { m_value : Z }.

Record distributed_atomic_reader_registry (N : nat) :=
  Distributed { m_counters : list counter }.
Arguments Distributed {N} _.
Arguments m_counters {N} _.

Section reader_registry.
Context `{pf : Platform}.

(** Arithmetic of [std::uint_fast32_t]. *)
Definition wrap (z : Z) : Z := (z mod 2 ^ uint_fast32_bits)%Z.

(** The values of [std::uint_fast32_t]. *)
Definition counter_in_range (z : Z) : Prop := (0 ≤ z < 2 ^ uint_fast32_bits)%Z.

(** [atomic_reader_registry::arrive]: [m_count.fetch_add(1, release)] *)
Definition atomic_arrive (r : atomic_reader_registry) : atomic_reader_registry :=
  {| m_count := wrap (m_count r + 1) |}.

(** [atomic_reader_registry::depart]: [m_count.fetch_sub(1, release)] *)
Definition atomic_depart (r : atomic_reader_registry) : atomic_reader_registry :=
  {| m_count := wrap (m_count r - 1) |}.

(** [atomic_reader_registry::empty]: [0 == m_count.load(acquire)] *)
Definition atomic_empty (r : atomic_reader_registry) : bool :=
  (0 =? m_count r)%Z.

Global Instance atomic_reader_registry_concept
    : ReaderRegistry atomic_reader_registry :=
  {| registry_init := Registry 0;
     arrive := atomic_arrive;
     depart := atomic_depart;
     empty := atomic_empty |}.

(** [counter::incr], [counter::decr], [counter::relaxed_read] *)
Definition incr (c : counter) : counter := {| m_value := wrap (m_value c + 1) |}.

Definition decr (c : counter) : counter := {| m_value := wrap (m_value c - 1) |}.

Definition relaxed_read (c : counter) : Z := m_value c.

(** [distributed_atomic_reader_registry::arrive]:
    [index = Hasher()(std::this_thread::get_id()) % N; m_counters[index].incr()] *)
Definition distributed_arrive {N : nat}
    (r : distributed_atomic_reader_registry N)
    : distributed_atomic_reader_registry N :=
  let index := this_thread_hash mod N in
  Distributed (alter incr index (m_counters r)).

(** [distributed_atomic_reader_registry::depart] *)
Definition distributed_depart {N : nat}
    (r : distributed_atomic_reader_registry N)
    : distributed_atomic_reader_registry N :=
  let index := this_thread_hash mod N in
  Distributed (alter decr index (m_counters r)).

(** [distributed_atomic_reader_registry::empty]: [std::none_of] the counters
    reads a value other than zero. *)
Definition distributed_empty {N : nat}
    (r : distributed_atomic_reader_registry N) : bool :=
  negb (existsb (λ ctr, negb (relaxed_read ctr =? 0)%Z) (m_counters r)).

Global Instance distributed_atomic_reader_registry_concept (N : nat)
    : ReaderRegistry (distributed_atomic_reader_registry N) :=
  {| registry_init := Distributed (replicate N (Counter 0));
     arrive := distributed_arrive;
     depart := distributed_depart;
     empty := distributed_empty |}.
End reader_registry.

(** [enum lr { read_left, read_right }] *)
Inductive lr : Type := read_left | read_right.

(** One call on a reader registry, with the index of the registry in
    [m_reader_registries]. *)
Inductive registry_call : Type :=
  | Arrive (idx : nat)
  | Depart (idx : nat).

Global Instance registry_call_eq_dec : EqDecision registry_call.
Proof. solve_decision. Defined.

(** The members of [basic_leftright<T, ReaderRegistry>].  The write mutex is
    held only while [modify] runs and has no state between calls.
    [registry_calls] is a ghost record of the calls made on the registries,
    oldest first; no operation reads it. *)
Record basic_leftright (T R : Type) : Type := LeftRight {
  m_reader_registries : list R;
  m_registry_index : nat;
  m_leftright : lr;
  m_left : T;
  m_right : T;
  registry_calls : list registry_call
}.
Arguments LeftRight {T R} _ _ _ _ _ _.
Arguments m_reader_registries {T R} _.
Arguments m_registry_index {T R} _.
Arguments m_leftright {T R} _.
Arguments m_left {T R} _.
Arguments m_right {T R} _.
Arguments registry_calls {T R} _.

(** [leftright<T>] is [basic_leftright<T, atomic_reader_registry>]. *)
Abbreviation leftright T := (basic_leftright T atomic_reader_registry)
  (only parsing).

(** How a call of a functor ends. *)
Inductive outcome (A : Type) : Type :=
  | returned (a : A)
  | thrown (what : string).
Arguments returned {A} a.
Arguments thrown {A} what.

(** The functor of [modify]: a callable object with a state of its own (what
    it captured, what it reads from its environment), called as [f(T&)];
    a call may change that state, changes the [T] and yields a result. *)
Record functor (T A : Type) : Type := Functor {
  closure : Type;
  captured : closure;
  call : closure → T → closure * (T * A)
}.
Arguments Functor {T A} _ _ _.
Arguments closure {T A} _.
Arguments captured {T A} _.
Arguments call {T A} _ _ _.

(** A functor without a state: every call does the same. *)
Definition stateless {T A : Type} (g : T → T * A) : functor T A :=
  {| closure := unit; captured := tt; call := λ _ t, (tt, g t) |}.

Section leftright.
Context {T R : Type} `{RR : ReaderRegistry R}.

(** The constructors from a seed: [m_left(seed), m_right(seed)] and
    [m_left(std::move(seed)), m_right(m_left)]; the two registries are
    default-constructed, the registry index starts at 0, the side at
    [read_left]. *)
Definition construct (seed : T) : basic_leftright T R :=
  {| m_reader_registries := [registry_init; registry_init];
     m_registry_index := 0;
     m_leftright := read_left;
     m_left := seed;
     m_right := seed;
     registry_calls := [] |}.

(** [basic_leftright(in_place_t, Args&&... args)]:
    [m_left(std::forward<Args>(args)...), m_right(m_left)]. *)
Definition construct_in_place {Args : Type} (ctor : Args → T)
    (args : Args) : basic_leftright T R :=
  let left := ctor args in
  {| m_reader_registries := [registry_init; registry_init];
     m_registry_index := 0;
     m_leftright := read_left;
     m_left := left;
     m_right := left;
     registry_calls := [] |}.

Definition set_registry_index (i : nat) (s : basic_leftright T R) :=
  LeftRight (m_reader_registries s) i (m_leftright s)
            (m_left s) (m_right s) (registry_calls s).

Definition set_leftright (side : lr) (s : basic_leftright T R) :=
  LeftRight (m_reader_registries s) (m_registry_index s) side
            (m_left s) (m_right s) (registry_calls s).

Definition set_left (t : T) (s : basic_leftright T R) :=
  LeftRight (m_reader_registries s) (m_registry_index s) (m_leftright s)
            t (m_right s) (registry_calls s).

Definition set_right (t : T) (s : basic_leftright T R) :=
  LeftRight (m_reader_registries s) (m_registry_index s) (m_leftright s)
            (m_left s) t (registry_calls s).

(** [scoped_read_indication(R& r)]: [m_reg.arrive()] on
    [m_reader_registries[idx]]. *)
Definition scoped_read_indication (idx : nat) (s : basic_leftright T R) :=
  LeftRight (alter arrive idx (m_reader_registries s))
            (m_registry_index s) (m_leftright s) (m_left s) (m_right s)
            (registry_calls s ++ [Arrive idx]).

(** [~scoped_read_indication()]: [m_reg.depart()] on the registry the
    object was built with. *)
Definition scoped_read_indication_end (idx : nat) (s : basic_leftright T R) :=
  LeftRight (alter depart idx (m_reader_registries s))
            (m_registry_index s) (m_leftright s) (m_left s) (m_right s)
            (registry_calls s ++ [Depart idx]).

(** The functor of [observe]: it is given the copy to read and runs on the
    container, on which it may call [observe] again and under which a
    writer may store a new registry index; it returns or throws. *)
Definition reader (A : Type) : Type :=
  T → basic_leftright T R → outcome A * basic_leftright T R.

(** [basic_leftright::observe]:
    [idx = m_registry_index.load(); scoped_read_indication sri(m_reader_registries[idx]);
     return read_left == m_leftright.load() ? f(m_left) : f(m_right);]
    The destructor of [sri] runs when [f] returns and when [f] throws. *)
Definition observe {A : Type} (f : reader A) (s : basic_leftright T R)
    : outcome A * basic_leftright T R :=
  let idx := m_registry_index s in
  let s1 := scoped_read_indication idx s in
  let '(o, s2) :=
    match m_leftright s1 with
    | read_left => f (m_left s1) s1
    | read_right => f (m_right s1) s1
    end in
  (o, scoped_read_indication_end idx s2).

(** [basic_leftright::toggle_reader_registry]: wait until the next registry
    is empty, store the next index, wait until the current registry is
    empty.  With one thread nothing empties a registry during the wait:
    the loop is left at once or never ([None]). *)
Definition toggle_reader_registry (s : basic_leftright T R)
    : option (basic_leftright T R) :=
  let current := m_registry_index s in
  let next := Nat.land (current + 1) 1 in
  r_next ← m_reader_registries s !! next;
  if empty r_next then
    let s1 := set_registry_index next s in
    r_current ← m_reader_registries s1 !! current;
    if empty r_current then Some s1 else None
  else None.

(** [basic_leftright::modify]: apply [f] to the copy that is not read,
    switch sides, toggle the registries, apply [f] to the other copy and
    return what this second call returns. *)
Definition modify {A : Type} (f : functor T A) (s : basic_leftright T R)
    : option (A * basic_leftright T R) :=
  match m_leftright s with
  | read_left =>
      let '(c1, (right', _)) := call f (captured f) (m_right s) in
      let s1 := set_leftright read_right (set_right right' s) in
      s2 ← toggle_reader_registry s1;
      let '(_, (left', a)) := call f c1 (m_left s2) in
      Some (a, set_left left' s2)
  | read_right =>
      let '(c1, (left', _)) := call f (captured f) (m_left s) in
      let s1 := set_leftright read_left (set_left left' s) in
      s2 ← toggle_reader_registry s1;
      let '(_, (right', a)) := call f c1 (m_right s2) in
      Some (a, set_right right' s2)
  end.
End leftright.

Arguments reader : clear implicits.

(** ** mpm/eventbus.hpp *)

Section eventbus.
Context `{pf : Platform} {Handler : Type}.

(** [detail::type_erased_subscriber]: a shared pointer [m_self] to a heap
    object [model<E, H>] that holds the handler.  The object is never
    changed after its construction and every copy of the subscriber shares
    it, so the record carries the address the pointer holds together with
    what the object is: the event type [E] it was built for and the
    handler. *)
Record type_erased_subscriber : Type := Subscriber {
  m_self : Z;
  model_E : class_type;
  handler : Handler
}.

(** [type_erased_subscriber::id()]:
    [reinterpret_cast<std::intptr_t>(m_self.get())]. *)
Definition subscriber_id (sub : type_erased_subscriber) : Z := m_self sub.

(** The calls of handlers made so far, oldest first, each given by the
    subscriber whose handler was called. *)
Abbreviation calls := (list type_erased_subscriber) (only parsing).

(** [type_erased_subscriber::deliver], that is [model<E, H>::deliver]:
    the base template, chosen when [detail::event] is a base of [E], calls
    [handler(static_cast<const E&>(e))]; the specialisation for the other
    event types calls the handler only if [dynamic_cast<const E*>(&e)]
    is not null. *)
Definition subscriber_deliver (sub : type_erased_subscriber) (e : object)
    (w : calls) : calls :=
  if is_base_of ti_event (model_E sub) then w ++ [sub]
  else if dynamic_cast (typeid (model_E sub)) e then w ++ [sub]
  else w.

(** [detail::cookie] with its two constructors. *)
Record cookie : Type := Cookie { cookie_id : Z; cookie_ti : type_index }.

Definition cookie_default : cookie :=
  {| cookie_id := 0; cookie_ti := ti_nullptr_t |}.

(** [std::unordered_multimap<std::type_index, type_erased_subscriber>]:
    the elements in iteration order.  Only the order among elements with
    equivalent keys has a meaning. *)
Abbreviation subs_multimap :=
  (list (type_index * type_erased_subscriber)) (only parsing).

(** [subs.equal_range(k)]: the elements with key [k], as iterated. *)
Definition equal_range (k : type_index) (subs : subs_multimap)
    : list (type_index * type_erased_subscriber) :=
  filter (λ kv, kv.1 = k) subs.

(** Link a new element in front of the [n]-th element with an equivalent
    key, behind all elements when there are fewer. *)
Fixpoint emplace_at (n : nat) (k : type_index) (v : type_erased_subscriber)
    (subs : subs_multimap) : subs_multimap :=
  match subs with
  | [] => [(k, v)]
  | kv :: rest =>
      if decide (kv.1 = k) then
        match n with
        | O => (k, v) :: kv :: rest
        | S n' => kv :: emplace_at n' k v rest
        end
      else kv :: emplace_at n k v rest
  end.

(** [subs.emplace(k, v)] *)
Definition emplace (k : type_index) (v : type_erased_subscriber)
    (subs : subs_multimap) : subs_multimap :=
  emplace_at (emplace_slot (subscriber_id ∘ snd <$> equal_range k subs))
             k v subs.

(** [detail::deliver<SubsMap>::operator()<T>()]: deliver the event to
    every subscriber of [subs.equal_range(typeid(T))], in iteration
    order. *)
Definition deliver (e : object) (m_subs : subs_multimap)
    (Tid : type_index) (w : calls) : calls :=
  foldl (λ w pos, subscriber_deliver pos.2 e w) w (equal_range Tid m_subs).

Abbreviation basic_eventbus := (leftright subs_multimap) (only parsing).

(** [basic_eventbus(allocator_type alloc)]: [m_subscribers(in_place, alloc)],
    an empty multimap and its copy. *)
Definition eventbus : basic_eventbus :=
  construct_in_place (λ _ : unit, [] : subs_multimap) tt.

(** [publish] for an [Event] that has [detail::event] as a base:
    [for_each_type<types>(deliver(event, subs))] under [observe].  The
    functor returns (handlers are [noexcept]); the calls of handlers it
    made are given as its result.  [None] when [dispatch_typelist<Event>]
    is ill-formed, in which case the call does not compile. *)
Definition publish_event (Event : class_type) (e : object)
    (bus : basic_eventbus) : option (calls * basic_eventbus) :=
  types ← dispatch_typelist Event;
  let '(o, bus') :=
    observe (λ subs s, (returned (for_each_type types (deliver e subs) []), s))
            bus in
  match o with
  | returned w => Some (w, bus')
  | thrown _ => None
  end.

(** [basic_eventbus::publish]: overload resolution on
    [std::is_base_of<detail::event, Event>]; the second overload wraps a
    copy of the event in [adapted_event<Event>] and publishes that. *)
Definition publish (Event : class_type) (e : object)
    (bus : basic_eventbus) : option (calls * basic_eventbus) :=
  if is_base_of ti_event Event then publish_event Event e bus
  else
    let ae := {| dynamic_type := adapted_event Event |} in
    publish_event (adapted_event Event) ae bus.

(** [basic_eventbus::subscribe<Event>(handler)].  [p] is the address of the
    [model<Event, EventHandler>] that [std::allocate_shared] returns. *)
Definition subscribe (p : Z) (Event : class_type) (h : Handler)
    (bus : basic_eventbus) : option (cookie * basic_eventbus) :=
  let tesub := {| m_self := p; model_E := Event; handler := h |} in
  modify (stateless (λ subs,
            let idx := typeid Event in
            (emplace idx tesub subs,
             {| cookie_id := subscriber_id tesub; cookie_ti := idx |})))
         bus.

(** An element of [subs.equal_range(c.ti)] with
    [pos->second.id() == c.id]. *)
Definition cookie_matches (c : cookie)
    (kv : type_index * type_erased_subscriber) : Prop :=
  kv.1 = cookie_ti c ∧ subscriber_id kv.2 = cookie_id c.

Global Instance cookie_matches_dec c kv : Decision (cookie_matches c kv).
Proof. unfold cookie_matches. apply _. Defined.

(** The functor of [unsubscribe]: walk [subs.equal_range(c.ti)] and erase
    the first element whose subscriber has the identity [c.id].  The range
    is made of the elements of the table with the key [c.ti], in the order
    of the table, so that the first match in the range is the first match
    in the table; [subs.erase(pos)] takes that one element out and leaves
    the others in their order. *)
Definition unsubscribe_functor (c : cookie) (subs : subs_multimap)
    : subs_multimap :=
  match list_find (cookie_matches c) subs with
  | Some (pos, _) => delete pos subs
  | None => subs
  end.

(** [basic_eventbus::unsubscribe(c)] *)
Definition unsubscribe (c : cookie) (bus : basic_eventbus)
    : option basic_eventbus :=
  snd <$> modify (stateless (λ subs, (unsubscribe_functor c subs, tt))) bus.

(** The chain of type identities that [publish] walks for [Event]. *)
Definition dispatch_chain (Event : class_type) : option (list type_index) :=
  heads <$> (if is_base_of ti_event Event then dispatch_typelist Event
             else dispatch_typelist (adapted_event Event)).

(** The object whose address the subscribers are given by [publish]. *)
Definition delivered_object (Event : class_type) (e : object) : object :=
  if is_base_of ti_event Event then e
  else {| dynamic_type := adapted_event Event |}.

(** Whether [subscriber_deliver] calls the handler of [sub] for [e]. *)
Definition accepts (sub : type_erased_subscriber) (e : object) : bool :=
  is_base_of ti_event (model_E sub) ||
  dynamic_cast (typeid (model_E sub)) e.

(** The operations that change the subscriber table. *)
Inductive operation : Type :=
  | op_subscribe (p : Z) (Event : class_type) (h : Handler)
  | op_unsubscribe (c : cookie).

Definition run_operation (op : operation) (bus : basic_eventbus)
    : option basic_eventbus :=
  match op with
  | op_subscribe p Event h => snd <$> subscribe p Event h bus
  | op_unsubscribe c => unsubscribe c bus
  end.

(** The identities of the subscribers stored in a table. *)
Definition identities (subs : subs_multimap) : list Z :=
  subscriber_id ∘ snd <$> subs.

(** The bus states reached from a new bus by completed [subscribe] and
    [unsubscribe] calls.  The allocator hands out an address that is not
    null and is not the address of a subscriber that is still stored. *)
Inductive reachable : basic_eventbus → Prop :=
  | reachable_new : reachable eventbus
  | reachable_subscribe bus p Event h c bus' :
      reachable bus →
      p ≠ 0%Z →
      p ∉ identities (m_left bus) →
      p ∉ identities (m_right bus) →
      subscribe p Event h bus = Some (c, bus') →
      reachable bus'
  | reachable_unsubscribe bus c bus' :
      reachable bus →
      unsubscribe c bus = Some bus' →
      reachable bus'.

(** A run of [publish] calls; the calls of handlers of each one. *)
Fixpoint publish_all (events : list (class_type * object))
    (bus : basic_eventbus) : option (list calls * basic_eventbus) :=
  match events with
  | [] => Some ([], bus)
  | (Event, e) :: rest =>
      '(w, bus1) ← publish Event e bus;
      '(ws, bus2) ← publish_all rest bus1;
      Some (w :: ws, bus2)
  end.
End eventbus.

Arguments type_erased_subscriber : clear implicits.
Arguments operation : clear implicits.

Abbreviation calls Handler := (list (type_erased_subscriber Handler)) (only parsing).
Abbreviation subs_multimap Handler :=
  (list (type_index * type_erased_subscriber Handler)) (only parsing).
Abbreviation basic_eventbus Handler :=
  (leftright (subs_multimap Handler)) (only parsing).

(** ** Vocabulary of the statements *)

(** What the container relies on in a reader registry: a new registry is
    empty, and on the states a registry can be in ([registry_in_range]) a
    departure undoes an arrival. *)
Class ReaderRegistryLaws (R : Type) `{RR : ReaderRegistry R} := {
  registry_in_range : R → Prop;
  registry_init_empty : empty registry_init = true;
  arrive_in_range (r : R) : registry_in_range r → registry_in_range (arrive r);
  depart_arrive (r : R) : registry_in_range r → depart (arrive r) = r
}.

Section leftright_vocabulary.
Context {T R : Type} `{RR : ReaderRegistry R}.

(** No reader is inside and the registry index is one of the two. *)
Definition quiescent (s : basic_leftright T R) : Prop :=
  length (m_reader_registries s) = 2 ∧
  Forall (λ r, empty r = true) (m_reader_registries s) ∧
  m_registry_index s < 2.

(** The two calls that [modify] makes of its functor change equal values
    into equal values. *)
Definition identical_mutation {A : Type} (f : functor T A) : Prop :=
  ∀ t : T,
    (call f (captured f) t).2.1
    = (call f (call f (captured f) t).1 t).2.1.

(** A functor together with its result type. *)
Definition any_functor : Type := { A : Type & functor T A }.

Definition pack {A : Type} (f : functor T A) : any_functor := existT A f.

Fixpoint modify_sequence (fs : list any_functor) (s : basic_leftright T R)
    : option (basic_leftright T R) :=
  match fs with
  | [] => Some s
  | existT _ f :: fs' => '(_, s') ← modify f s; modify_sequence fs' s'
  end.

(** A functor of [observe] that calls no registry: it leaves the registries
    and the record of calls as they are.  It may do anything else, throw,
    or run while a writer stores another registry index. *)
Definition silent {A : Type} (f : reader T R A) : Prop :=
  ∀ t s,
    m_reader_registries (f t s).2 = m_reader_registries s ∧
    registry_calls (f t s).2 = registry_calls s.

(** The functors whose registry calls all come from [observe] calls they
    make themselves, nested to any depth and one after the other: after an
    inner [observe] the functor goes on according to how it ended. *)
Inductive nesting : ∀ A : Type, reader T R A → Prop :=
  | nesting_silent A (f : reader T R A) :
      silent f → nesting A f
  | nesting_observe A A' (g : reader T R A') (k : outcome A' → reader T R A) :
      nesting A' g →
      (∀ o, nesting A (k o)) →
      nesting A (λ t s, let '(o, s') := observe g s in k o t s').

Definition arrivals (i : nat) (l : list registry_call) : nat :=
  length (filter (λ c, c = Arrive i) l).

Definition departures (i : nat) (l : list registry_call) : nat :=
  length (filter (λ c, c = Depart i) l).

(** As many departures as arrivals, registry by registry. *)
Definition net_zero (l : list registry_call) : Prop :=
  ∀ i, arrivals i l = departures i l.

Context `{!ReaderRegistryLaws R}.

(** Every registry is in a state it can be in. *)
Definition registries_in_range (s : basic_leftright T R) : Prop :=
  Forall registry_in_range (m_reader_registries s).

(** What a functor does to the registries, as far as [observe] relies on
    it: the registries come back to what they were and the calls it adds
    are balanced. *)
Definition restores {A : Type} (f : reader T R A) : Prop :=
  ∀ t s,
    registries_in_range s →
    m_reader_registries (f t s).2 = m_reader_registries s ∧
    ∃ added,
      registry_calls (f t s).2 = registry_calls s ++ added ∧
      net_zero added.
End leftright_vocabulary.

Arguments any_functor : clear implicits.

(** ** The declarations of a program *)



(** The classes declared the way the documentation of the library has it:
    [struct E : polymorphic_event<E> {}] and
    [struct E : polymorphic_event<E, Base> {}], where the first argument of
    [polymorphic_event] is the class that is being declared, the classes
    derived from such a class, and the classes that do not use
    [polymorphic_event].  As in every C++ program, a class is not one of
    its own bases: its identity is not the identity of one of them. *)
Fixpoint documented (C : class_type) : bool :=
  match C with
  | event | plain _ => true
  | polymorphic_event _ _ => false
  | derived name Base =>
      negb (is_base_of (ti_class name) Base) &&
      match Base with
      | polymorphic_event T Base' =>
          bool_decide (T = ti_class name) && documented Base'
      | _ => documented Base
      end
  | adapted_event Base => documented Base
  end.

Section eventbus_vocabulary.
Context `{pf : Platform} {Handler : Type}.

(** How often the handler of the subscriber with identity [p] was
    called. *)
Definition times_called (p : Z) (w : calls Handler) : nat :=
  length (filter (λ sub, subscriber_id sub = p) w).

(** How often a type identity occurs in a chain. *)
Definition occurrences (k : type_index) (chain : list type_index) : nat :=
  length (filter (λ Tid, Tid = k) chain).

(** The subscribers stored under a key that take the object, in the order
    in which [equal_range] yields them. *)
Definition takers (e : object) (subs : subs_multimap Handler)
    (k : type_index) : calls Handler :=
  filter (λ sub, accepts sub e = true) (snd <$> equal_range k subs).

(** What [unsubscribe] may do to a table: nothing when no element matches
    the cookie, else take out the first element that matches. *)
Definition erased_first_match (c : cookie) (before after : subs_multimap Handler)
    : Prop :=
  (Forall (λ kv, ¬ cookie_matches c kv) before ∧ after = before) ∨
  (∃ front kv back,
      before = front ++ kv :: back ∧
      Forall (λ kv', ¬ cookie_matches c kv') front ∧
      cookie_matches c kv ∧
      after = front ++ back).

(** The copy that [observe] hands to its functor. *)
Definition active_copy (bus : basic_eventbus Handler) : subs_multimap Handler :=
  match m_leftright bus with
  | read_left => m_left bus
  | read_right => m_right bus
  end.

(** What holds of the table of a bus between operations: no two stored
    subscribers share an identity, none has the identity 0, and each is
    stored under the identity of the event type it was built for. *)
Definition table_invariant (subs : subs_multimap Handler) : Prop :=
  NoDup (identities subs) ∧
  (0%Z ∉ identities subs) ∧
  Forall (λ kv, kv.1 = typeid (model_E kv.2)) subs.

Definition bus_invariant (bus : basic_eventbus Handler) : Prop :=
  quiescent bus ∧ m_left bus = m_right bus ∧ table_invariant (m_left bus).

(** A run of [subscribe] and [unsubscribe] calls. *)
Fixpoint run_operations (ops : list (operation Handler))
    (bus : basic_eventbus Handler) : option (basic_eventbus Handler) :=
  match ops with
  | [] => Some bus
  | op :: ops' => bus' ← run_operation op bus; run_operations ops' bus'
  end.

(** The subscriptions in the order in which they were made: a
    subscription goes behind those made before it, an [unsubscribe] takes
    out the one it designates. *)
Definition in_subscription_order_step (subs : subs_multimap Handler)
    (op : operation Handler) : subs_multimap Handler :=
  match op with
  | op_subscribe p Event h => subs ++ [(typeid Event, Subscriber p Event h)]
  | op_unsubscribe c => unsubscribe_functor c subs
  end.

Definition in_subscription_order (ops : list (operation Handler))
    : subs_multimap Handler :=
  foldl in_subscription_order_step [] ops.

(** Every [subscribe] of the run is given an address that is not null and
    not the address of a stored subscriber. *)
Fixpoint fresh_addresses (ops : list (operation Handler))
    (bus : basic_eventbus Handler) : Prop :=
  match ops with
  | [] => True
  | op :: ops' =>
      match op with
      | op_subscribe p _ _ =>
          p ≠ 0%Z ∧ (p ∉ identities (m_left bus)) ∧
          (p ∉ identities (m_right bus))
      | op_unsubscribe _ => True
      end ∧
      match run_operation op bus with
      | Some bus' => fresh_addresses ops' bus'
      | None => False
      end
  end.

(** The same requirement on the allocator, asked only of the calls that
    are reached: nothing is required after a call that does not return. *)
Fixpoint fresh_allocations (ops : list (operation Handler))
    (bus : basic_eventbus Handler) : Prop :=
  match ops with
  | [] => True
  | op :: ops' =>
      match op with
      | op_subscribe p _ _ =>
          p ≠ 0%Z ∧ (p ∉ identities (m_left bus)) ∧
          (p ∉ identities (m_right bus))
      | op_unsubscribe _ => True
      end ∧
      match run_operation op bus with
      | Some bus' => fresh_allocations ops' bus'
      | None => True
      end
  end.

(** The event types for which [publish] is well-formed. *)
Definition publishable (events : list (class_type * object)) : Prop :=
  Forall (λ ev, is_Some (dispatch_chain ev.1)) events.
End eventbus_vocabulary.

(** ** The event types of the test suite and of the scenarios *)

Definition base_event : class_type :=
  derived "base_event" (polymorphic_event (ti_class "base_event") event).

Definition derived_event : class_type :=
  derived "derived_event"
          (polymorphic_event (ti_class "derived_event") base_event).

Definition very_derived_event : class_type :=
  derived "very_derived_event" derived_event.

Definition non_polymorphic_event : class_type :=
  plain "non_polymorphic_event".

Definition PlainParent : class_type := plain "PlainParent".

Definition PlainChild : class_type := derived "PlainChild" PlainParent.

(** [struct Foo {};  struct Mislabelled : polymorphic_event<Foo> {};]
    The first argument of [polymorphic_event] names a class that is not a
    base of the event. *)
Definition Foo : class_type := plain "Foo".

Definition Mislabelled : class_type :=
  derived "Mislabelled" (polymorphic_event (ti_class "Foo") event).

(** [struct Echo;  struct Early : polymorphic_event<Echo> {};
     struct Echo : polymorphic_event<Echo, Early> {};]
    The declared chain of [Echo] names [Echo] twice. *)
Definition Early : class_type :=
  derived "Early" (polymorphic_event (ti_class "Echo") event).

Definition Echo : class_type :=
  derived "Echo" (polymorphic_event (ti_class "Echo") Early).

Section scenario_definitions.
Local Existing Instance libcxx.

(** Scenario S2: a handler for [base_event] and one for [derived_event]. *)
Definition scenario_ops : list (operation string) :=
  [op_subscribe 100 base_event "H_B"; op_subscribe 200 derived_event "H_D"].

Definition scenario_bus : basic_eventbus string :=
  default eventbus (run_operations scenario_ops eventbus).

(** Scenario S3: a handler for [PlainParent] and one for [PlainChild]. *)
Definition plain_ops : list (operation string) :=
  [op_subscribe 100 PlainParent "H_P"; op_subscribe 200 PlainChild "H_C"].

Definition plain_bus : basic_eventbus string :=
  default eventbus (run_operations plain_ops eventbus).

(** Two handlers for [base_event], subscribed one after the other. *)
Definition first_second_ops : list (operation string) :=
  [op_subscribe 100 base_event "first"; op_subscribe 200 base_event "second"].

(** A handler subscribed for the adapter of [PlainChild]. *)
Definition adapter_ops : list (operation string) :=
  [op_subscribe 100 (adapted_event PlainChild) "H_A"].

(** A functor that pushes a number, and one whose second call pushes
    another number than its first. *)
Definition push_seven : functor (list nat) unit :=
  stateless (λ l, (7 :: l, tt)).

Definition push_ticket : functor (list nat) unit :=
  {| closure := nat; captured := 0; call := λ n l, (S n, (n :: l, tt)) |}.

(** A reader that throws while a writer has moved the registry index on, a
    reader that enters [observe] once more around it and swallows what it
    threw, and a container with a reader already inside. *)
Definition interrupted_reader : reader nat atomic_reader_registry nat :=
  λ _ s, (thrown "interrupted", set_registry_index 1 s).

Definition reentrant_reader : reader nat atomic_reader_registry nat :=
  λ t s, let '(o, s') := observe interrupted_reader s in
         (λ (_ : outcome nat) t s, (returned t, s)) o t s'.

Definition busy_container : leftright nat :=
  LeftRight [Registry 1; Registry 0] 0 read_left 5 5 [Arrive 0].

(** A reader that returns the counters of the two registries as they are
    while it runs. *)
Definition counting_reader : reader nat atomic_reader_registry (list Z) :=
  λ _ s, (returned (m_count <$> m_reader_registries s), s).
End scenario_definitions.

(** ** Runs of calls on one reader registry *)

Inductive registry_step : Type := step_arrive | step_depart.

(** Arrivals less departures. *)
Fixpoint net_arrivals (steps : list registry_step) : Z :=
  match steps with
  | [] => 0
  | step_arrive :: rest => 1 + net_arrivals rest
  | step_depart :: rest => -1 + net_arrivals rest
  end.

Section registry_runs.
Context {R : Type} `{RR : ReaderRegistry R}.

(** The calls of one thread on a registry, one after the other. *)
Fixpoint registry_run (steps : list registry_step) (r : R) : R :=
  match steps with
  | [] => r
  | step_arrive :: rest => registry_run rest (arrive r)
  | step_depart :: rest => registry_run rest (depart r)
  end.
End registry_runs.

(** ** [mpm::scoped_subscription<Event>] (eventbus.hpp) *)

Section scoped_subscription.
Context `{pf : Platform} {Handler : Type}.

(** The buses of a program: the bus at address [a] is the [a]-th of the
    list.  A pointer to a bus that is not there dangles. *)
Abbreviation buses := (list (basic_eventbus Handler)) (only parsing).

(** [template <typename Event> class scoped_subscription].  The members:
    [m_ebus], a non-owning pointer to the bus or null, and [m_cookie].
    The move assignment operator has no return statement and is left
    out. *)
Record scoped_subscription (Event : class_type) : Type := ScopedSubscription {
  m_ebus : option nat;
  m_cookie : cookie
}.
#[global] Arguments ScopedSubscription {Event} _ _.
#[global] Arguments m_ebus {Event} _.
#[global] Arguments m_cookie {Event} _.

Context {Event : class_type}.

(** [scoped_subscription()]: [m_ebus(nullptr)], the cookie
    default-constructed. *)
Definition scoped_subscription_empty : scoped_subscription Event :=
  {| m_ebus := None; m_cookie := cookie_default |}.

(** [scoped_subscription(scoped_subscription&& other)]: take both members,
    then [other.m_ebus = nullptr].  The new object and what is left of
    [other]. *)
Definition scoped_subscription_move (other : scoped_subscription Event)
    : scoped_subscription Event * scoped_subscription Event :=
  ({| m_ebus := m_ebus other; m_cookie := m_cookie other |},
   {| m_ebus := None; m_cookie := m_cookie other |}).

(** [swap(other)]: [swap(m_ebus, other.m_ebus); swap(m_cookie, other.m_cookie)].
    What [this] and [other] are afterwards. *)
Definition swap (this other : scoped_subscription Event)
    : scoped_subscription Event * scoped_subscription Event :=
  ({| m_ebus := m_ebus other; m_cookie := m_cookie other |},
   {| m_ebus := m_ebus this; m_cookie := m_cookie this |}).

(** [reset()]: [if(m_ebus) m_ebus->unsubscribe(m_cookie);].  The members
    stay as they are. *)
Definition reset (this : scoped_subscription Event) (heap : buses)
    : option buses :=
  match m_ebus this with
  | Some a =>
      bus ← heap !! a;
      bus' ← unsubscribe (m_cookie this) bus;
      Some (<[a := bus']> heap)
  | None => Some heap
  end.

(** [~scoped_subscription()]: [reset()]. *)
Definition scoped_subscription_destroy (this : scoped_subscription Event)
    (heap : buses) : option buses :=
  reset this heap.

(** [scoped_subscription(basic_eventbus<Alloc>& ebus, const Handler& h)]:
    [m_ebus(&ebus), m_cookie(ebus.subscribe<event_type>(h))].  [a] is the
    address of the bus, [p] the address the allocator returns for the
    subscriber. *)
Definition scoped_subscription_new (a : nat) (p : Z) (h : Handler)
    (heap : buses) : option (scoped_subscription Event * buses) :=
  bus ← heap !! a;
  '(c, bus') ← subscribe p Event h bus;
  Some ({| m_ebus := Some a; m_cookie := c |}, <[a := bus']> heap).

(** [assign(ebus, h)]: [reset(); m_ebus = &ebus;
    m_cookie = ebus.subscribe<event_type>(h);] *)
Definition assign (this : scoped_subscription Event) (a : nat) (p : Z)
    (h : Handler) (heap : buses)
    : option (scoped_subscription Event * buses) :=
  heap1 ← reset this heap;
  bus ← heap1 !! a;
  '(c, bus') ← subscribe p Event h bus;
  Some ({| m_ebus := Some a; m_cookie := c |}, <[a := bus']> heap1).
End scoped_subscription.

(** * Properties of the Left-Right container *)

Section leftright_facts.
Context {T R : Type} `{RR : ReaderRegistry R} `{!ReaderRegistryLaws R}.

Lemma construct_in_place_construct {Args : Type} (ctor : Args → T) args :
  construct_in_place (R := R) ctor args = construct (ctor args).
Proof. reflexivity. Qed.

Lemma construct_quiescent (seed : T) : quiescent (construct (R := R) seed).
Proof.
  split; [reflexivity |]. split; [| simpl; lia].
  simpl. repeat constructor; apply registry_init_empty.
Qed.

Lemma next_index_lt (i : nat) : Nat.land (i + 1) 1 < 2.
Proof.
  change 1 with (Nat.ones 1) at 2. rewrite Nat.land_ones.
  apply Nat.mod_upper_bound. discriminate.
Qed.

(** On a quiescent container the writer does not wait. *)
Lemma toggle_reader_registry_quiescent (s : basic_leftright T R) :
  quiescent s →
  toggle_reader_registry s
  = Some (set_registry_index (Nat.land (m_registry_index s + 1) 1) s).
Proof.
  destruct s as [regs idx side l r log]. unfold quiescent. simpl.
  intros (Hlen & Hempty & Hidx). unfold toggle_reader_registry. simpl.
  destruct regs as [|r0 [|r1 [|r2 regs]]]; try discriminate Hlen.
  apply Forall_cons in Hempty as [H0 Hempty].
  apply Forall_cons in Hempty as [H1 _].
  destruct idx as [|[|idx]]; [| | lia]; simpl;
    rewrite ?H0, ?H1; simpl; rewrite ?H0, ?H1; reflexivity.
Qed.

(** What [modify] does on a quiescent container, member by member. *)
Lemma modify_quiescent {A : Type} (f : functor T A) (s : basic_leftright T R) :
  quiescent s →
  let first_copy := match m_leftright s with
                    | read_left => m_right s | read_right => m_left s end in
  let second_copy := match m_leftright s with
                     | read_left => m_left s | read_right => m_right s end in
  let first_call := call f (captured f) first_copy in
  let second_call := call f first_call.1 second_copy in
  modify f s
  = Some (second_call.2.2,
          LeftRight (m_reader_registries s)
                    (Nat.land (m_registry_index s + 1) 1)
                    (match m_leftright s with
                     | read_left => read_right | read_right => read_left end)
                    (match m_leftright s with
                     | read_left => second_call.2.1
                     | read_right => first_call.2.1 end)
                    (match m_leftright s with
                     | read_left => first_call.2.1
                     | read_right => second_call.2.1 end)
                    (registry_calls s)).
Proof.
  intros Hq. cbv zeta.
  destruct s as [regs idx side l r log]. unfold modify. simpl in *.
  destruct side; simpl.
  - destruct (call f (captured f) r) as [c1 [r' res1]] eqn:Hfirst. simpl.
    rewrite toggle_reader_registry_quiescent by exact Hq. simpl.
    destruct (call f c1 l) as [c2 [l' res2]] eqn:Hsecond. reflexivity.
  - destruct (call f (captured f) l) as [c1 [l' res1]] eqn:Hfirst. simpl.
    rewrite toggle_reader_registry_quiescent by exact Hq. simpl.
    destruct (call f c1 r) as [c2 [r' res2]] eqn:Hsecond. reflexivity.
Qed.

Lemma modify_preserves {A : Type} (f : functor T A) (s : basic_leftright T R) :
  quiescent s →
  ∃ r s',
    modify f s = Some (r, s') ∧
    quiescent s' ∧
    (m_left s = m_right s → identical_mutation f → m_left s' = m_right s').
Proof.
  intros Hq. eexists _, _. split; [apply modify_quiescent, Hq |].
  split.
  - destruct Hq as (Hlen & Hempty & _).
    split; [exact Hlen |]. split; [exact Hempty | apply next_index_lt].
  - intros Heq Hid. simpl. rewrite Heq.
    destruct (m_leftright s); [symmetry |]; apply Hid.
Qed.

(** [modify] with a functor that has no state of its own. *)
Lemma modify_stateless {A : Type} (g : T → T * A) (s : basic_leftright T R) :
  quiescent s →
  ∃ s',
    modify (stateless g) s
    = Some ((g (match m_leftright s with
                | read_left => m_left s | read_right => m_right s end)).2, s') ∧
    m_left s' = (g (m_left s)).1 ∧
    m_right s' = (g (m_right s)).1 ∧
    quiescent s'.
Proof.
  intros Hq. eexists. split; [apply modify_quiescent, Hq |].
  destruct Hq as (Hlen & Hempty & _). unfold quiescent.
  destruct (m_leftright s); simpl;
    (split; [reflexivity |]; split; [reflexivity |];
     split; [exact Hlen |]; split; [exact Hempty | apply next_index_lt]).
Qed.

Lemma modify_sequence_preserves (fs : list (any_functor T))
    (s : basic_leftright T R) :
  quiescent s →
  m_left s = m_right s →
  Forall (λ f, identical_mutation (projT2 f)) fs →
  ∃ s', modify_sequence fs s = Some s' ∧ quiescent s' ∧ m_left s' = m_right s'.
Proof.
  intros Hq Heq Hfs. revert s Hq Heq.
  induction Hfs as [|[A f] fs Hf Hfs IH]; intros s Hq Heq.
  - exists s. auto.
  - destruct (modify_preserves f s Hq) as (r & s1 & Hm & Hq1 & Heq1).
    destruct (IH s1 Hq1 (Heq1 Heq Hf)) as (s' & Hrun & Hq' & Heq').
    exists s'. simpl. rewrite Hm. simpl. auto.
Qed.

(** C2 -- After [modify(f)] returns, the left and the right copy are
    equal, for every functor [f] whose two calls apply the same mutation:
    starting from the construction of the container, which makes the two
    copies equal, any sequence of such [modify] calls returns and leaves
    the two copies equal. *)
Theorem modify_keeps_copies_equal {Args : Type} (ctor : Args → T)
    (args : Args) (fs : list (any_functor T)) :
  Forall (λ f, identical_mutation (projT2 f)) fs →
  m_left (construct_in_place (R := R) ctor args)
  = m_right (construct_in_place (R := R) ctor args) ∧
  ∃ s', modify_sequence fs (construct_in_place (R := R) ctor args) = Some s' ∧
        m_left s' = m_right s'.
Proof.
  intros Hfs. split; [reflexivity |].
  destruct (modify_sequence_preserves fs (construct_in_place (R := R) ctor args))
    as (s' & Hrun & _ & Heq); [apply construct_quiescent | reflexivity | exact Hfs |].
  exists s'. auto.
Qed.
End leftright_facts.

Section registry_laws.
Context `{pf : Platform}.

Lemma wrap_in_range (z c : Z) : counter_in_range c → counter_in_range (wrap z).
Proof.
  unfold counter_in_range, wrap. intros Hc. apply Z.mod_pos_bound. lia.
Qed.

(** A decrement undoes an increment, also across the wrap-around. *)
Lemma wrap_decrement_increment (c : Z) :
  counter_in_range c → wrap (wrap (c + 1) - 1) = c.
Proof.
  unfold counter_in_range, wrap. intros Hc.
  rewrite Zminus_mod_idemp_l.
  replace (c + 1 - 1)%Z with c by lia.
  apply Z.mod_small. exact Hc.
Qed.

Lemma atomic_arrive_in_range (r : atomic_reader_registry) :
  counter_in_range (m_count r) → counter_in_range (m_count (atomic_arrive r)).
Proof. intros Hr. apply (wrap_in_range _ (m_count r)), Hr. Qed.

Lemma atomic_depart_arrive (r : atomic_reader_registry) :
  counter_in_range (m_count r) → atomic_depart (atomic_arrive r) = r.
Proof.
  destruct r as [c]. simpl. intros Hc. unfold atomic_depart, atomic_arrive.
  simpl. f_equal. apply wrap_decrement_increment, Hc.
Qed.

Global Instance atomic_reader_registry_laws
    : ReaderRegistryLaws atomic_reader_registry :=
  {| registry_in_range := λ r, counter_in_range (m_count r);
     registry_init_empty := eq_refl;
     arrive_in_range := atomic_arrive_in_range;
     depart_arrive := atomic_depart_arrive |}.

Lemma distributed_init_empty (N : nat) :
  distributed_empty (N := N) (Distributed (replicate N (Counter 0))) = true.
Proof.
  unfold distributed_empty. simpl.
  induction N as [|N IH]; [reflexivity | exact IH].
Qed.

Lemma alter_incr_in_range (cs : list counter) (i : nat) :
  Forall (λ c, counter_in_range (m_value c)) cs →
  Forall (λ c, counter_in_range (m_value c)) (alter incr i cs).
Proof.
  intros Hcs. revert i.
  induction Hcs as [|c cs Hc Hcs IH]; intros [|i]; simpl.
  - constructor.
  - constructor.
  - constructor; [apply (wrap_in_range _ (m_value c)), Hc | exact Hcs].
  - constructor; [exact Hc | apply IH].
Qed.

Lemma alter_decr_incr (cs : list counter) (i : nat) :
  Forall (λ c, counter_in_range (m_value c)) cs →
  alter decr i (alter incr i cs) = cs.
Proof.
  intros Hcs. revert i.
  induction Hcs as [|c cs Hc Hcs IH]; intros [|i]; simpl.
  - reflexivity.
  - reflexivity.
  - f_equal. destruct c as [v]. unfold decr, incr. simpl. f_equal.
    apply wrap_decrement_increment, Hc.
  - f_equal. apply IH.
Qed.

Lemma distributed_arrive_in_range (N : nat)
    (r : distributed_atomic_reader_registry N) :
  Forall (λ c, counter_in_range (m_value c)) (m_counters r) →
  Forall (λ c, counter_in_range (m_value c)) (m_counters (distributed_arrive r)).
Proof. apply alter_incr_in_range. Qed.

(** A thread departs from the counter it arrived at. *)
Lemma distributed_depart_arrive (N : nat)
    (r : distributed_atomic_reader_registry N) :
  Forall (λ c, counter_in_range (m_value c)) (m_counters r) →
  distributed_depart (distributed_arrive r) = r.
Proof.
  destruct r as [cs]. simpl. intros Hcs.
  unfold distributed_depart, distributed_arrive. simpl. f_equal.
  apply alter_decr_incr, Hcs.
Qed.

Global Instance distributed_atomic_reader_registry_laws (N : nat)
    : ReaderRegistryLaws (distributed_atomic_reader_registry N) :=
  {| registry_in_range :=
       λ r, Forall (λ c, counter_in_range (m_value c)) (m_counters r);
     registry_init_empty := distributed_init_empty N;
     arrive_in_range := distributed_arrive_in_range N;
     depart_arrive := distributed_depart_arrive N |}.
End registry_laws.

Section registry_facts.
Context {T R : Type} `{RR : ReaderRegistry R} `{!ReaderRegistryLaws R}.

Lemma alter_depart_arrive (regs : list R) (i : nat) :
  Forall registry_in_range regs →
  alter depart i (alter arrive i regs) = regs.
Proof.
  intros Hregs. revert i.
  induction Hregs as [|r regs Hr Hregs IH]; intros [|i]; simpl.
  - reflexivity.
  - reflexivity.
  - f_equal. apply depart_arrive, Hr.
  - f_equal. apply IH.
Qed.

Lemma alter_arrive_in_range (regs : list R) (i : nat) :
  Forall registry_in_range regs →
  Forall registry_in_range (alter arrive i regs).
Proof.
  intros Hregs. revert i.
  induction Hregs as [|r regs Hr Hregs IH]; intros [|i]; simpl.
  - constructor.
  - constructor.
  - constructor; [apply arrive_in_range, Hr | exact Hregs].
  - constructor; [exact Hr | apply IH].
Qed.

Lemma arrivals_app (i : nat) (l1 l2 : list registry_call) :
  arrivals i (l1 ++ l2) = arrivals i l1 + arrivals i l2.
Proof. unfold arrivals. rewrite filter_app, length_app. reflexivity. Qed.

Lemma departures_app (i : nat) (l1 l2 : list registry_call) :
  departures i (l1 ++ l2) = departures i l1 + departures i l2.
Proof. unfold departures. rewrite filter_app, length_app. reflexivity. Qed.

Lemma net_zero_nil : net_zero [].
Proof. intros i. reflexivity. Qed.

Lemma net_zero_app (l1 l2 : list registry_call) :
  net_zero l1 → net_zero l2 → net_zero (l1 ++ l2).
Proof.
  intros H1 H2 i. rewrite arrivals_app, departures_app, (H1 i), (H2 i).
  reflexivity.
Qed.

Lemma net_zero_pair (j : nat) : net_zero [Arrive j; Depart j].
Proof.
  intros i. unfold arrivals, departures.
  rewrite !filter_cons, !filter_nil.
  repeat case_decide; simplify_eq; reflexivity.
Qed.

Lemma net_zero_bracket (j : nat) (inner : list registry_call) :
  net_zero inner → net_zero (Arrive j :: inner ++ [Depart j]).
Proof.
  intros Hin i.
  change (Arrive j :: inner ++ [Depart j])
    with ([Arrive j] ++ inner ++ [Depart j]).
  rewrite !arrivals_app, !departures_app, (Hin i).
  pose proof (net_zero_pair j i) as Hpair.
  change [Arrive j; Depart j] with ([Arrive j] ++ [Depart j]) in Hpair.
  rewrite arrivals_app, departures_app in Hpair. lia.
Qed.

Lemma observe_bracket {A : Type} (f : reader T R A) (s : basic_leftright T R) :
  restores f →
  registries_in_range s →
  m_reader_registries (observe f s).2 = m_reader_registries s ∧
  ∃ inner,
    registry_calls (observe f s).2
    = registry_calls s
      ++ Arrive (m_registry_index s) :: inner ++ [Depart (m_registry_index s)] ∧
    net_zero inner ∧
    (silent f → inner = []).
Proof.
  intros Hf Hs. unfold observe.
  set (idx := m_registry_index s).
  set (s1 := scoped_read_indication idx s).
  assert (Hs1 : registries_in_range s1)
    by (apply alter_arrive_in_range, Hs).
  set (copy := match m_leftright s1 with
               | read_left => m_left s1 | read_right => m_right s1 end).
  assert (Hrun : match m_leftright s1 with
                 | read_left => f (m_left s1) s1
                 | read_right => f (m_right s1) s1
                 end = f copy s1) by (subst copy; destruct (m_leftright s1); reflexivity).
  rewrite Hrun. clear Hrun.
  destruct (Hf copy s1 Hs1) as (Hregs & added & Hcalls & Hnet).
  pose proof (λ Hsil : silent f, proj2 (Hsil copy s1)) as Hsilent.
  destruct (f copy s1) as [o s2]. simpl in *.
  split.
  - rewrite Hregs. apply alter_depart_arrive, Hs.
  - exists added. split; [| split].
    + rewrite Hcalls. rewrite <- !app_assoc. reflexivity.
    + exact Hnet.
    + intros Hsil. specialize (Hsilent Hsil). rewrite Hsilent in Hcalls.
      apply (app_inv_head (registry_calls s ++ [Arrive idx])).
      rewrite app_nil_r. symmetry. exact Hcalls.
Qed.

Lemma nesting_restores {A : Type} (f : reader T R A) :
  nesting A f → restores f.
Proof.
  induction 1 as [A f Hsil | A A' g k Hg IHg Hk IHk]; intros t s Hs.
  - destruct (Hsil t s) as [Hregs Hcalls]. split; [exact Hregs |].
    exists []. rewrite app_nil_r. split; [exact Hcalls | apply net_zero_nil].
  - destruct (observe_bracket g s IHg Hs) as (Hregs & inner & Hcalls & Hnet & _).
    destruct (observe g s) as [o s1]. simpl in *.
    assert (Hs1 : registries_in_range s1)
      by (unfold registries_in_range; rewrite Hregs; exact Hs).
    destruct (IHk o t s1 Hs1) as (Hregs' & added & Hcalls' & Hnet').
    split; [congruence |].
    exists ((Arrive (m_registry_index s) :: inner
             ++ [Depart (m_registry_index s)]) ++ added).
    split.
    + rewrite Hcalls', Hcalls, <- app_assoc. reflexivity.
    + apply net_zero_app; [apply net_zero_bracket, Hnet | exact Hnet'].
Qed.

(** C8 -- A call of [observe] makes one [arrive] and one [depart], both on
    the registry whose index it read on entry.  The functor is called
    once, on the copy that is read and on a container in which that
    registry, and no other, has had [arrive] called on it: the reader is
    registered while the functor runs.  When the functor is left, by a
    return or by an exception, [depart] is called on the registry with the
    index read on entry, whatever the registry index has become meanwhile.
    So the calls added to the record are [Arrive idx], then the calls of
    the functor, then [Depart idx].  For a functor that nests [observe]
    calls to any depth, the calls of the functor are balanced, so that on
    exit every registry has as many departures as arrivals and every
    counter is back at its value. *)
Theorem observe_arrive_depart {A : Type} (f : reader T R A)
    (s : basic_leftright T R) :
  registries_in_range s →
  nesting A f →
  let idx := m_registry_index s in
  let copy := match m_leftright s with
              | read_left => m_left s
              | read_right => m_right s
              end in
  ∃ entered inner,
    m_reader_registries entered = alter arrive idx (m_reader_registries s) ∧
    registry_calls entered = registry_calls s ++ [Arrive idx] ∧
    m_registry_index entered = idx ∧
    m_leftright entered = m_leftright s ∧
    m_left entered = m_left s ∧
    m_right entered = m_right s ∧
    (observe f s).1 = (f copy entered).1 ∧
    m_reader_registries (observe f s).2
    = alter depart idx (m_reader_registries (f copy entered).2) ∧
    registry_calls (observe f s).2
    = registry_calls (f copy entered).2 ++ [Depart idx] ∧
    registry_calls (observe f s).2
    = registry_calls s ++ Arrive idx :: inner ++ [Depart idx] ∧
    (silent f → inner = []) ∧
    net_zero inner ∧
    net_zero (Arrive idx :: inner ++ [Depart idx]) ∧
    m_reader_registries (observe f s).2 = m_reader_registries s.
Proof.
  intros Hs Hf idx copy.
  destruct (observe_bracket f s (nesting_restores f Hf) Hs)
    as (Hregs & inner & Hcalls & Hnet & Hsil).
  exists (LeftRight (alter arrive idx (m_reader_registries s))
                    (m_registry_index s) (m_leftright s)
                    (m_left s) (m_right s)
                    (registry_calls s ++ [Arrive idx])),
         inner.
  repeat (split; [reflexivity |]).
  assert (Hrun : observe f s
                 = ((f copy (scoped_read_indication idx s)).1,
                    scoped_read_indication_end idx
                      (f copy (scoped_read_indication idx s)).2)).
  { unfold observe. fold idx. subst copy. cbn [scoped_read_indication m_leftright m_left m_right].
    destruct (m_leftright s);
      match goal with |- context [f ?t ?s1] => destruct (f t s1) end;
      reflexivity. }
  split; [rewrite Hrun; reflexivity |].
  split; [rewrite Hrun; reflexivity |].
  split; [rewrite Hrun; reflexivity |].
  split; [exact Hcalls |]. split; [exact Hsil |]. split; [exact Hnet |].
  split; [apply net_zero_bracket, Hnet | exact Hregs].
Qed.
End registry_facts.

(** * Properties of the dispatch chain *)

Section dispatch_facts.

Lemma typeid_not_nullptr (E : class_type) : typeid E ≠ ti_nullptr_t.
Proof. destruct E; discriminate. Qed.

Lemma adapted_event_fresh (k : type_index) : ti_adapted_event k ≠ k.
Proof. induction k; congruence. Qed.

Lemma is_base_of_refl (E : class_type) : is_base_of (typeid E) E = true.
Proof.
  destruct E; simpl; try reflexivity;
    (case_bool_decide; [reflexivity | congruence]).
Qed.

Lemma adapted_event_is_event (E : class_type) :
  is_base_of ti_event (adapted_event E) = true.
Proof. reflexivity. Qed.

Lemma dispatch_as_is_event (E : class_type) (TL : typelist) :
  dispatch_as E = Some TL → is_base_of ti_event E = true.
Proof.
  revert TL. induction E as [|T Base IH|name|name Base IH|Base IH];
    intros TL HTL; simpl in *.
  - reflexivity.
  - destruct (dispatch_as Base) as [tl|]; [|discriminate].
    rewrite (IH tl eq_refl). reflexivity.
  - discriminate.
  - rewrite (IH TL HTL). reflexivity.
  - reflexivity.
Qed.

Lemma not_event_not_adapted (E : class_type) (k : type_index) :
  is_base_of ti_event E = false → typeid E ≠ ti_adapted_event k.
Proof. destruct E; simpl; intros HE; try discriminate. Qed.

Lemma for_each_type_heads {W : Type} (TL : typelist)
    (f : type_index → W → W) (w : W) :
  for_each_type TL f w = foldl (λ w Tid, f Tid w) w (heads TL).
Proof.
  unfold for_each_type. revert w.
  induction TL as [|Head Tail IH]; intros w; simpl; [reflexivity | apply IH].
Qed.

(** The chain of an event type without a declared chain. *)
Lemma dispatch_chain_adapted (E : class_type) :
  is_base_of ti_event E = false →
  dispatch_chain E = Some [ti_adapted_event (typeid E); typeid E].
Proof.
  intros HE. unfold dispatch_chain. rewrite HE.
  unfold dispatch_typelist. simpl.
  destruct (decide (ti_adapted_event (typeid E) = typeid E)) as [Heq|_].
  - destruct (adapted_event_fresh _ Heq).
  - reflexivity.
Qed.


(** The types that a documented class declares in its chain are the class
    and bases of the class. *)
Lemma dispatch_as_bases (C : class_type) (TL : typelist) :
  dispatch_as C = Some TL →
  match C with
  | polymorphic_event T Base =>
      documented Base = true →
      ∀ k, k ∈ heads TL → k = T ∨ is_base_of k C = true
  | _ => documented C = true → ∀ k, k ∈ heads TL → is_base_of k C = true
  end.
Proof.
  revert TL. induction C as [|T Base IH|name|name Base IH|Base IH];
    intros TL HTL.
  - injection HTL as <-. intros _ k Hk. apply elem_of_nil in Hk. destruct Hk.
  - cbn [dispatch_as] in HTL.
    destruct (dispatch_as Base) as [tl|] eqn:Hbase; [|discriminate].
    injection HTL as <-. intros Hdoc k Hk.
    cbn [heads] in Hk. apply elem_of_cons in Hk as [-> | Hk]; [left; reflexivity |].
    right. cbn [is_base_of].
    assert (Hk' : is_base_of k Base = true).
    { specialize (IH tl eq_refl).
      destruct Base; try discriminate Hdoc; exact (IH Hdoc k Hk). }
    rewrite Hk'. apply orb_true_r.
  - discriminate.
  - cbn [dispatch_as] in HTL. specialize (IH TL HTL).
    intros Hdoc k Hk. cbn [documented] in Hdoc.
    apply andb_prop in Hdoc as [_ Hdoc]. cbn [is_base_of].
    destruct Base as [|T Base'|name'|name' Base'|Base'].
    + rewrite (IH Hdoc k Hk). apply orb_true_r.
    + apply andb_prop in Hdoc as [HT Hdoc]. apply bool_decide_eq_true in HT.
      destruct (IH Hdoc k Hk) as [-> | Hbase].
      * subst T. cbn [typeid].
        rewrite (bool_decide_eq_true_2 (ti_class name = ti_class name) eq_refl).
        reflexivity.
      * rewrite Hbase. apply orb_true_r.
    + rewrite (IH Hdoc k Hk). apply orb_true_r.
    + rewrite (IH Hdoc k Hk). apply orb_true_r.
    + rewrite (IH Hdoc k Hk). apply orb_true_r.
  - injection HTL as <-. intros _ k Hk.
    cbn [heads] in Hk. apply elem_of_cons in Hk as [-> | Hk].
    + cbn [is_base_of]. rewrite is_base_of_refl, !orb_true_r. reflexivity.
    + apply elem_of_nil in Hk. destruct Hk.
Qed.

Lemma documented_dispatch_as_bases (C : class_type) (TL : typelist) :
  documented C = true →
  dispatch_as C = Some TL →
  ∀ k, k ∈ heads TL → is_base_of k C = true.
Proof.
  intros Hdoc HTL. pose proof (dispatch_as_bases C TL HTL) as Hbases.
  destruct C; try discriminate Hdoc; exact (Hbases Hdoc).
Qed.


(** A documented class is named once in the chain that [publish] walks for
    it: at the head. *)
Lemma documented_head_once (E : class_type) (Head : type_index)
    (Tail : typelist) :
  documented E = true →
  dispatch_as E = Some (typelist_cons Head Tail) →
  typeid E ∉ heads (if decide (typeid E = Head) then Tail
                    else typelist_cons Head Tail).
Proof.
  intros Hdoc Hdecl.
  destruct E as [|T Base|name|name Base|Base]; try discriminate.
  - cbn [documented] in Hdoc. apply andb_prop in Hdoc as [Hnot Hdoc].
    apply negb_true_iff in Hnot. cbn [dispatch_as] in Hdecl. cbn [typeid].
    destruct Base as [|T Base'|name'|name' Base'|Base'].
    + discriminate.
    + apply andb_prop in Hdoc as [HT Hdoc]. apply bool_decide_eq_true in HT.
      cbn [dispatch_as] in Hdecl.
      destruct (dispatch_as Base') as [tl|] eqn:Hbase; [|discriminate].
      injection Hdecl as <- <-.
      rewrite decide_True by (symmetry; exact HT).
      intros Hin.
      pose proof (documented_dispatch_as_bases Base' tl Hdoc Hbase _ Hin)
        as Hbase_of.
      cbn [is_base_of] in Hnot. rewrite Hbase_of, orb_true_r in Hnot.
      discriminate.
    + discriminate.
    + assert (Hall : ∀ k, k ∈ heads (typelist_cons Head Tail) →
                          k ≠ ti_class name).
      { intros k Hk ->.
        rewrite (documented_dispatch_as_bases _ _ Hdoc Hdecl _ Hk) in Hnot.
        discriminate. }
      rewrite decide_False
        by (intros Heq; apply (Hall Head); [apply elem_of_cons; auto | auto]).
      intros Hin. exact (Hall _ Hin eq_refl).
    + assert (Hall : ∀ k, k ∈ heads (typelist_cons Head Tail) →
                          k ≠ ti_class name).
      { intros k Hk ->.
        rewrite (documented_dispatch_as_bases _ _ Hdoc Hdecl _ Hk) in Hnot.
        discriminate. }
      rewrite decide_False
        by (intros Heq; apply (Hall Head); [apply elem_of_cons; auto | auto]).
      intros Hin. exact (Hall _ Hin eq_refl).
  - injection Hdecl as <- <-. cbn [typeid].
    rewrite decide_False by apply adapted_event_fresh.
    cbn [heads]. intros Hin.
    apply elem_of_cons in Hin as [Heq | Hin];
      [exact (adapted_event_fresh _ Heq) | apply elem_of_nil in Hin; destruct Hin].
Qed.
End dispatch_facts.

(** * Properties of the event bus *)

Section publish_facts.
Context `{pf : Platform} {Handler : Type}.
Implicit Types (sub : type_erased_subscriber Handler)
               (subs : subs_multimap Handler)
               (bus : basic_eventbus Handler)
               (w : calls Handler).

Lemma subscriber_deliver_accepts sub e w :
  subscriber_deliver sub e w = w ++ (if accepts sub e then [sub] else []).
Proof.
  unfold subscriber_deliver, accepts.
  destruct (is_base_of ti_event (model_E sub)); simpl; [reflexivity |].
  destruct (dynamic_cast (typeid (model_E sub)) e); simpl;
    [reflexivity | symmetry; apply app_nil_r].
Qed.

Lemma deliver_takers e subs k w :
  deliver e subs k w = w ++ takers e subs k.
Proof.
  unfold deliver, takers. generalize (equal_range k subs) as group.
  intros group. revert w.
  induction group as [|pos group IH]; intros w; simpl.
  - symmetry. apply app_nil_r.
  - rewrite IH, subscriber_deliver_accepts, filter_cons.
    destruct (accepts pos.2 e) eqn:Hacc.
    + rewrite decide_True by reflexivity. rewrite <- app_assoc. reflexivity.
    + rewrite decide_False by discriminate. rewrite app_nil_r. reflexivity.
Qed.

Lemma deliver_chain e subs (chain : list type_index) w :
  foldl (λ w Tid, deliver e subs Tid w) w chain
  = w ++ concat (takers e subs <$> chain).
Proof.
  revert w. induction chain as [|k chain IH]; intros w; simpl.
  - symmetry. apply app_nil_r.
  - rewrite IH, deliver_takers, <- app_assoc. reflexivity.
Qed.

(** [publish] always returns; its calls are those of the chain elements
    one after the other, and it leaves both copies of the table alone. *)
Lemma publish_event_calls Event e bus types :
  dispatch_typelist Event = Some types →
  publish_event Event e bus
  = Some (concat (takers e (active_copy bus) <$> heads types),
          scoped_read_indication_end (m_registry_index bus)
            (scoped_read_indication (m_registry_index bus) bus)).
Proof.
  intros Htypes. unfold publish_event. rewrite Htypes. simpl.
  unfold observe, active_copy. simpl.
  destruct (m_leftright bus); simpl;
    rewrite for_each_type_heads, deliver_chain; reflexivity.
Qed.

Lemma publish_calls Event e bus chain :
  dispatch_chain Event = Some chain →
  publish Event e bus
  = Some (concat (takers (delivered_object Event e) (active_copy bus) <$> chain),
          scoped_read_indication_end (m_registry_index bus)
            (scoped_read_indication (m_registry_index bus) bus)).
Proof.
  unfold dispatch_chain, publish, delivered_object.
  destruct (is_base_of ti_event Event); intros Hchain.
  - destruct (dispatch_typelist Event) as [types|] eqn:Htypes; [|discriminate].
    simpl in Hchain. injection Hchain as <-.
    apply publish_event_calls, Htypes.
  - destruct (dispatch_typelist (adapted_event Event)) as [types|] eqn:Htypes;
      [|discriminate].
    simpl in Hchain. injection Hchain as <-.
    apply publish_event_calls, Htypes.
Qed.

Lemma elem_of_takers sub e subs k :
  sub ∈ takers e subs k ↔ (k, sub) ∈ subs ∧ accepts sub e = true.
Proof.
  unfold takers, equal_range.
  rewrite list_elem_of_filter, list_elem_of_fmap. split.
  - intros [Hacc ([k' sub'] & -> & Hin)].
    apply list_elem_of_filter in Hin as [Hk Hin]. simpl in *. subst k'.
    auto.
  - intros [Hin Hacc]. split; [exact Hacc |].
    exists (k, sub). split; [reflexivity |].
    apply list_elem_of_filter. auto.
Qed.

Lemma takers_cons e k0 sub0 subs k :
  takers e ((k0, sub0) :: subs) k
  = (if decide (k0 = k) then (if accepts sub0 e then [sub0] else []) else [])
    ++ takers e subs k.
Proof.
  unfold takers, equal_range. rewrite filter_cons. cbn [fst].
  destruct (decide (k0 = k)); [|reflexivity].
  rewrite fmap_cons, filter_cons. cbn [snd].
  destruct (accepts sub0 e).
  - rewrite decide_True by reflexivity. reflexivity.
  - rewrite decide_False by discriminate. reflexivity.
Qed.

Lemma times_called_app p w1 w2 :
  times_called p (w1 ++ w2) = times_called p w1 + times_called p w2.
Proof. unfold times_called. rewrite filter_app, length_app. reflexivity. Qed.

Lemma times_called_absent p e subs k :
  p ∉ identities subs → times_called p (takers e subs k) = 0.
Proof.
  unfold identities.
  induction subs as [|[k0 sub0] subs IH]; intros Hnot; [reflexivity |].
  rewrite fmap_cons in Hnot. apply not_elem_of_cons in Hnot as [Hne Hnot].
  cbn [compose snd] in Hne.
  rewrite takers_cons, times_called_app, (IH Hnot).
  destruct (decide (k0 = k)); [|reflexivity].
  destruct (accepts sub0 e); [|reflexivity].
  unfold times_called. rewrite filter_cons, decide_False by congruence.
  reflexivity.
Qed.

(** Among subscribers with distinct identities, the one stored as
    [(k, sub)] is called once for its own key, if it takes the object, and
    not at all for another key. *)
Lemma times_called_takers sub e subs k k' :
  NoDup (identities subs) →
  (k, sub) ∈ subs →
  times_called (subscriber_id sub) (takers e subs k')
  = if decide (k' = k) then (if accepts sub e then 1 else 0) else 0.
Proof.
  induction subs as [|[k0 sub0] subs IH]; intros Hnodup Hin.
  - apply elem_of_nil in Hin. destruct Hin.
  - unfold identities in Hnodup. rewrite fmap_cons in Hnodup.
    apply NoDup_cons in Hnodup as [Hfresh Hnodup].
    cbn [compose snd] in Hfresh.
    rewrite takers_cons, times_called_app.
    apply elem_of_cons in Hin as [Heq | Hin].
    + injection Heq as <- <-.
      rewrite (times_called_absent _ e subs k' Hfresh).
      destruct (decide (k = k')) as [->|Hk].
      * rewrite decide_True by reflexivity.
        destruct (accepts sub e); [|reflexivity].
        unfold times_called. rewrite filter_cons, decide_True by reflexivity.
        reflexivity.
      * rewrite decide_False by congruence. reflexivity.
    + assert (Hne : subscriber_id sub0 ≠ subscriber_id sub).
      { intros Heq. apply Hfresh. rewrite Heq.
        apply list_elem_of_fmap. exists (k, sub). auto. }
      rewrite (IH Hnodup Hin).
      destruct (decide (k0 = k')); [|reflexivity].
      destruct (accepts sub0 e); [|reflexivity].
      unfold times_called at 1.
      rewrite filter_cons, decide_False by exact Hne. reflexivity.
Qed.

Lemma times_called_chain sub e subs k (chain : list type_index) :
  NoDup (identities subs) →
  (k, sub) ∈ subs →
  times_called (subscriber_id sub) (concat (takers e subs <$> chain))
  = if accepts sub e then occurrences k chain else 0.
Proof.
  intros Hnodup Hin. unfold occurrences.
  induction chain as [|k' chain IH].
  - destruct (accepts sub e); reflexivity.
  - change (concat (takers e subs <$> k' :: chain))
      with (takers e subs k' ++ concat (takers e subs <$> chain)).
    rewrite times_called_app, IH, (times_called_takers sub e subs k k')
      by assumption.
    rewrite filter_cons.
    destruct (decide (k' = k)); destruct (accepts sub e); simpl; reflexivity.
Qed.
End publish_facts.

Section table_facts.
Context `{pf : Platform} {Handler : Type}.
Implicit Types (sub : type_erased_subscriber Handler)
               (subs : subs_multimap Handler)
               (bus : basic_eventbus Handler)
               (c : cookie).

Lemma emplace_at_Permutation n k sub subs :
  emplace_at n k sub subs ≡ₚ (k, sub) :: subs.
Proof.
  revert n. induction subs as [|kv subs IH]; intros n; simpl.
  - reflexivity.
  - destruct (decide (kv.1 = k)).
    + destruct n as [|n]; [reflexivity |].
      rewrite IH. apply Permutation_swap.
    + rewrite IH. apply Permutation_swap.
Qed.

Lemma emplace_Permutation k sub subs :
  emplace k sub subs ≡ₚ (k, sub) :: subs.
Proof. apply emplace_at_Permutation. Qed.

Lemma emplace_table_invariant E (p : Z) (h : Handler) subs :
  table_invariant subs →
  p ≠ 0%Z →
  p ∉ identities subs →
  table_invariant (emplace (typeid E) (Subscriber p E h) subs).
Proof.
  intros (Hnodup & Hzero & Hkeys) Hp Hfresh.
  unfold table_invariant, identities in *.
  rewrite !emplace_Permutation, fmap_cons. cbn [compose snd subscriber_id m_self].
  split; [| split].
  - apply NoDup_cons. auto.
  - intros Hin. apply elem_of_cons in Hin as [Heq | Hin]; auto.
  - constructor; [reflexivity | exact Hkeys].
Qed.

Lemma unsubscribe_functor_nil c :
  unsubscribe_functor c ([] : subs_multimap Handler) = [].
Proof. reflexivity. Qed.

(** The loop of [unsubscribe], one element at a time. *)
Lemma unsubscribe_functor_cons c kv subs :
  unsubscribe_functor c (kv :: subs)
  = if decide (cookie_matches c kv) then subs
    else kv :: unsubscribe_functor c subs.
Proof.
  unfold unsubscribe_functor. simpl.
  destruct (decide (cookie_matches c kv)); [reflexivity |].
  destruct (list_find (cookie_matches c) subs) as [[pos kv']|]; reflexivity.
Qed.

Lemma unsubscribe_functor_erases c subs :
  erased_first_match c subs (unsubscribe_functor c subs).
Proof.
  induction subs as [|kv subs IH].
  - left. split; [constructor | reflexivity].
  - rewrite unsubscribe_functor_cons.
    destruct (decide (cookie_matches c kv)) as [Hm | Hm].
    + right. exists [], kv, subs.
      split; [reflexivity |]. split; [constructor |].
      split; [exact Hm | reflexivity].
    + destruct IH as [[Hnone Heq] | (front & kv' & back & Heq & Hfront & Hkv & Hres)].
      * left. split; [constructor; assumption | rewrite Heq; reflexivity].
      * right. exists (kv :: front), kv', back.
        split; [rewrite Heq; reflexivity |].
        split; [constructor; assumption |].
        split; [assumption | rewrite Hres; reflexivity].
Qed.

Lemma unsubscribe_functor_no_match c subs :
  Forall (λ kv, ¬ cookie_matches c kv) subs →
  unsubscribe_functor c subs = subs.
Proof.
  induction 1 as [|kv subs Hkv Hsubs IH]; [reflexivity |].
  rewrite unsubscribe_functor_cons, decide_False by exact Hkv.
  rewrite IH. reflexivity.
Qed.

Lemma unsubscribe_functor_subset c subs kv :
  kv ∈ unsubscribe_functor c subs → kv ∈ subs.
Proof.
  induction subs as [|kv0 subs IH]; [intros Hin; exact Hin |].
  rewrite unsubscribe_functor_cons.
  destruct (decide (cookie_matches c kv0)).
  - intros Hin. apply elem_of_cons. auto.
  - intros Hin. apply elem_of_cons in Hin as [-> | Hin];
      apply elem_of_cons; auto.
Qed.

Lemma unsubscribe_functor_identities c subs (p : Z) :
  p ∈ identities (unsubscribe_functor c subs) → p ∈ identities subs.
Proof.
  unfold identities. rewrite !list_elem_of_fmap.
  intros (kv & -> & Hin). exists kv. split; [reflexivity |].
  eapply unsubscribe_functor_subset, Hin.
Qed.

Lemma unsubscribe_functor_NoDup c subs :
  NoDup (identities subs) → NoDup (identities (unsubscribe_functor c subs)).
Proof.
  induction subs as [|kv subs IH]; [intros Hn; exact Hn |].
  intros Hnodup. unfold identities in Hnodup. rewrite fmap_cons in Hnodup.
  apply NoDup_cons in Hnodup as [Hfresh Hnodup].
  rewrite unsubscribe_functor_cons.
  destruct (decide (cookie_matches c kv)); [exact Hnodup |].
  unfold identities. rewrite fmap_cons. apply NoDup_cons. split.
  - intros Hin. apply Hfresh. eapply unsubscribe_functor_identities, Hin.
  - apply IH, Hnodup.
Qed.

Lemma unsubscribe_functor_table_invariant c subs :
  table_invariant subs → table_invariant (unsubscribe_functor c subs).
Proof.
  intros (Hnodup & Hzero & Hkeys). split; [| split].
  - apply unsubscribe_functor_NoDup, Hnodup.
  - intros Hin. apply Hzero. eapply unsubscribe_functor_identities, Hin.
  - rewrite Forall_forall in Hkeys |- *. intros kv Hin.
    apply Hkeys. eapply unsubscribe_functor_subset, Hin.
Qed.

(** With distinct identities, nothing matches the cookie any more once
    [unsubscribe] has run. *)
Lemma unsubscribe_functor_removes c subs :
  NoDup (identities subs) →
  Forall (λ kv, ¬ cookie_matches c kv) (unsubscribe_functor c subs).
Proof.
  induction subs as [|kv subs IH]; [constructor |].
  intros Hnodup. unfold identities in Hnodup. rewrite fmap_cons in Hnodup.
  apply NoDup_cons in Hnodup as [Hfresh Hnodup].
  rewrite unsubscribe_functor_cons.
  destruct (decide (cookie_matches c kv)) as [Hm | Hm].
  - apply Forall_forall. intros kv' Hin [_ Hid].
    apply Hfresh. destruct Hm as [_ Hid0]. cbn [compose].
    rewrite Hid0, <- Hid. apply list_elem_of_fmap. exists kv'. auto.
  - constructor; [exact Hm | apply IH, Hnodup].
Qed.

(** Unsubscribing what was just emplaced gives the table back. *)
Lemma unsubscribe_functor_emplace_at n k sub subs :
  subscriber_id sub ∉ identities subs →
  unsubscribe_functor (Cookie (subscriber_id sub) k) (emplace_at n k sub subs)
  = subs.
Proof.
  revert n. induction subs as [|kv subs IH]; intros n Hfresh.
  - simpl. rewrite unsubscribe_functor_cons, decide_True;
      [reflexivity | split; reflexivity].
  - unfold identities in Hfresh. rewrite fmap_cons in Hfresh.
    apply not_elem_of_cons in Hfresh as [Hne Hfresh]. cbn [compose] in Hne.
    assert (Hkv : ¬ cookie_matches (Cookie (subscriber_id sub) k) kv).
    { intros [_ Hid]. simpl in Hid. congruence. }
    simpl. destruct (decide (kv.1 = k)).
    + destruct n as [|n].
      * rewrite unsubscribe_functor_cons, decide_True;
          [reflexivity | split; reflexivity].
      * rewrite unsubscribe_functor_cons, decide_False by exact Hkv.
        rewrite IH by exact Hfresh. reflexivity.
    + rewrite unsubscribe_functor_cons, decide_False by exact Hkv.
      rewrite IH by exact Hfresh. reflexivity.
Qed.

(** [subscribe] on a quiescent bus: it returns, with the cookie of the new
    subscriber, and emplaces it in both copies. *)
Lemma subscribe_quiescent (p : Z) E (h : Handler) bus :
  quiescent bus →
  ∃ bus',
    subscribe p E h bus = Some (Cookie p (typeid E), bus') ∧
    m_left bus' = emplace (typeid E) (Subscriber p E h) (m_left bus) ∧
    m_right bus' = emplace (typeid E) (Subscriber p E h) (m_right bus) ∧
    quiescent bus'.
Proof.
  intros Hq. unfold subscribe.
  destruct (modify_stateless
              (λ subs, (emplace (typeid E) (Subscriber p E h) subs,
                        Cookie (subscriber_id (Subscriber p E h)) (typeid E)))
              bus Hq) as (bus' & Hm & Hl & Hr & Hq').
  exists bus'. auto.
Qed.

(** [unsubscribe] on a quiescent bus: it returns and runs its functor on
    both copies. *)
Lemma unsubscribe_quiescent c bus :
  quiescent bus →
  ∃ bus',
    unsubscribe c bus = Some bus' ∧
    m_left bus' = unsubscribe_functor c (m_left bus) ∧
    m_right bus' = unsubscribe_functor c (m_right bus) ∧
    quiescent bus'.
Proof.
  intros Hq. unfold unsubscribe.
  destruct (modify_stateless (λ subs, (unsubscribe_functor c subs, tt))
              bus Hq) as (bus' & Hm & Hl & Hr & Hq').
  exists bus'. rewrite Hm. auto.
Qed.

Lemma eventbus_invariant : bus_invariant (eventbus (Handler := Handler)).
Proof.
  split; [apply construct_quiescent |]. split; [reflexivity |].
  split; [apply NoDup_nil_2 |]. split; [apply not_elem_of_nil | constructor].
Qed.

Lemma reachable_invariant bus : reachable bus → bus_invariant bus.
Proof.
  induction 1 as [| bus p E h c bus' Hreach IH Hp Hl Hr Hsub
                  | bus c bus' Hreach IH Hunsub].
  - apply eventbus_invariant.
  - destruct IH as (Hq & Heq & Hinv).
    destruct (subscribe_quiescent p E h bus Hq) as (bus1 & Hs & Hl1 & Hr1 & Hq1).
    rewrite Hs in Hsub. injection Hsub as <- <-.
    split; [exact Hq1 |]. split; [rewrite Hl1, Hr1, Heq; reflexivity |].
    rewrite Hl1. apply emplace_table_invariant; assumption.
  - destruct IH as (Hq & Heq & Hinv).
    destruct (unsubscribe_quiescent c bus Hq) as (bus1 & Hu & Hl1 & Hr1 & Hq1).
    rewrite Hu in Hunsub. injection Hunsub as <-.
    split; [exact Hq1 |]. split; [rewrite Hl1, Hr1, Heq; reflexivity |].
    rewrite Hl1. apply unsubscribe_functor_table_invariant, Hinv.
Qed.

Lemma active_copy_left bus :
  m_left bus = m_right bus → active_copy bus = m_left bus.
Proof. intros Heq. unfold active_copy. destruct (m_leftright bus); auto. Qed.
End table_facts.

Section unsubscribe_facts.
Context `{pf : Platform} {Handler : Type}.
Implicit Types (sub : type_erased_subscriber Handler)
               (subs : subs_multimap Handler)
               (bus : basic_eventbus Handler)
               (c : cookie).

(** C9 -- [unsubscribe(c)] erases at most one handler record, the first
    one under the key [c.ti] whose identity is [c.id]: either no record
    matches and the table is unchanged, or the table was
    [front ++ kv :: back] with [kv] the first match and becomes
    [front ++ back], so that every other record stays, in its place
    relative to the others.  This holds of both copies, and
    [unsubscribe] returns. *)
Theorem unsubscribe_erases_first_match bus c :
  quiescent bus →
  ∃ bus',
    unsubscribe c bus = Some bus' ∧
    erased_first_match c (m_left bus) (m_left bus') ∧
    erased_first_match c (m_right bus) (m_right bus').
Proof.
  intros Hq.
  destruct (unsubscribe_quiescent c bus Hq) as (bus' & Hu & Hl & Hr & _).
  exists bus'. rewrite Hl, Hr.
  split; [exact Hu |]. split; apply unsubscribe_functor_erases.
Qed.

(** C7 -- On every state of the bus, [unsubscribe(c)] run twice leaves
    the same table as [unsubscribe(c)] run once; and when no record
    matches [(c.ti, c.id)] it leaves the table as it was.  Both calls
    return: there is no error to signal. *)
Theorem unsubscribe_idempotent bus c :
  reachable bus →
  ∃ once twice,
    unsubscribe c bus = Some once ∧
    unsubscribe c once = Some twice ∧
    m_left twice = m_left once ∧
    m_right twice = m_right once ∧
    (Forall (λ kv, ¬ cookie_matches c kv) (m_left bus) →
     m_left once = m_left bus ∧ m_right once = m_right bus).
Proof.
  intros Hreach.
  destruct (reachable_invariant bus Hreach) as (Hq & Heq & Hnodup & _).
  destruct (unsubscribe_quiescent c bus Hq) as (once & Hu1 & Hl1 & Hr1 & Hq1).
  destruct (unsubscribe_quiescent c once Hq1) as (twice & Hu2 & Hl2 & Hr2 & _).
  exists once, twice.
  split; [exact Hu1 |]. split; [exact Hu2 |].
  assert (Hgone : unsubscribe_functor c (unsubscribe_functor c (m_left bus))
                  = unsubscribe_functor c (m_left bus))
    by (apply unsubscribe_functor_no_match, unsubscribe_functor_removes, Hnodup).
  split; [rewrite Hl2, Hl1; exact Hgone |].
  split; [rewrite Hr2, Hr1, <- Heq; exact Hgone |].
  intros Hnone. rewrite Hl1, Hr1, <- Heq.
  split; apply unsubscribe_functor_no_match, Hnone.
Qed.

(** C10 -- Unsubscribing a default-constructed cookie changes no table of
    the bus, in every state: that cookie carries the identity 0 and the
    type index of [std::nullptr_t]; no record is stored under that type
    index, as [subscribe] takes class types only, and no stored record has
    the identity 0. *)
Theorem unsubscribe_default_cookie bus :
  reachable bus →
  cookie_id cookie_default = 0%Z ∧
  cookie_ti cookie_default = ti_nullptr_t ∧
  (∀ kv, kv ∈ m_left bus →
         kv.1 ≠ ti_nullptr_t ∧ subscriber_id kv.2 ≠ 0%Z) ∧
  ∃ bus',
    unsubscribe cookie_default bus = Some bus' ∧
    m_left bus' = m_left bus ∧
    m_right bus' = m_right bus.
Proof.
  intros Hreach.
  destruct (reachable_invariant bus Hreach)
    as (Hq & Heq & Hnodup & Hzero & Hkeys).
  assert (Hstored : ∀ kv, kv ∈ m_left bus →
                      kv.1 ≠ ti_nullptr_t ∧ subscriber_id kv.2 ≠ 0%Z).
  { intros kv Hin. split.
    - rewrite Forall_forall in Hkeys. rewrite (Hkeys kv Hin).
      apply typeid_not_nullptr.
    - intros Hid. apply Hzero. rewrite <- Hid.
      apply list_elem_of_fmap. exists kv. auto. }
  split; [reflexivity |]. split; [reflexivity |]. split; [exact Hstored |].
  destruct (unsubscribe_quiescent cookie_default bus Hq)
    as (bus' & Hu & Hl & Hr & _).
  exists bus'. split; [exact Hu |].
  assert (Hnone : Forall (λ kv, ¬ cookie_matches cookie_default kv) (m_left bus)).
  { apply Forall_forall. intros kv Hin [Hk _].
    destruct (Hstored kv Hin) as [Hne _]. apply Hne. exact Hk. }
  rewrite Hl, Hr, <- Heq. split; apply unsubscribe_functor_no_match, Hnone.
Qed.
End unsubscribe_facts.

Section delivery_facts.
Context `{pf : Platform} {Handler : Type}.
Implicit Types (sub : type_erased_subscriber Handler)
               (subs : subs_multimap Handler)
               (bus : basic_eventbus Handler)
               (c : cookie).

Lemma elem_of_chain_takers sub e subs (chain : list type_index) :
  sub ∈ concat (takers e subs <$> chain) ↔
  ∃ k, k ∈ chain ∧ (k, sub) ∈ subs ∧ accepts sub e = true.
Proof.
  induction chain as [|k chain IH].
  - split; [intros Hin; apply elem_of_nil in Hin; destruct Hin |].
    intros (k & Hk & _). apply elem_of_nil in Hk. destruct Hk.
  - change (concat (takers e subs <$> k :: chain))
      with (takers e subs k ++ concat (takers e subs <$> chain)).
    rewrite elem_of_app, IH, elem_of_takers. split.
    + intros [[Hin Hacc] | (k' & Hk' & Hin & Hacc)].
      * exists k. split; [apply elem_of_cons; auto | auto].
      * exists k'. split; [apply elem_of_cons; auto | auto].
    + intros (k' & Hk' & Hin & Hacc).
      apply elem_of_cons in Hk' as [-> | Hk']; [left; auto |].
      right. exists k'. auto.
Qed.

(** A run of [publish] calls returns, and calls stored subscribers only;
    the table it reads stays the same. *)
Lemma publish_all_calls events bus :
  publishable events →
  ∃ ws final,
    publish_all events bus = Some (ws, final) ∧
    ∀ w sub, w ∈ ws → sub ∈ w → ∃ k, (k, sub) ∈ active_copy bus.
Proof.
  intros Hev. revert bus.
  induction Hev as [|[Event e] events [chain Hchain] Hev IH]; intros bus.
  - exists [], bus. split; [reflexivity |].
    intros w sub Hw. apply elem_of_nil in Hw. destruct Hw.
  - simpl in Hchain.
    pose proof (publish_calls Event e bus chain Hchain) as Hpub.
    set (bus1 := scoped_read_indication_end (m_registry_index bus)
                   (scoped_read_indication (m_registry_index bus) bus)) in *.
    destruct (IH bus1) as (ws & final & Hrest & Hcalls).
    eexists (_ :: ws), final. simpl. rewrite Hpub. simpl.
    rewrite Hrest. simpl. split; [reflexivity |].
    intros w sub Hw Hsub. apply elem_of_cons in Hw as [-> | Hw].
    + apply elem_of_chain_takers in Hsub as (k & _ & Hin & _). eauto.
    + apply (Hcalls w sub Hw Hsub).
Qed.

(** C6 -- A subscription made by [subscribe] is stored under the cookie
    that [subscribe] returns; unsubscribing that cookie right away gives
    both copies of the table back as they were; and whenever
    [unsubscribe] of that cookie has returned, in whatever state of the
    bus it ran, no [publish] that follows calls the handler through the
    subscriber the cookie stood for. *)
Theorem subscribe_unsubscribe_round_trip bus (p : Z) E (h : Handler) :
  reachable bus →
  p ≠ 0%Z →
  p ∉ identities (m_left bus) →
  ∃ bus1,
    subscribe p E h bus = Some (Cookie p (typeid E), bus1) ∧
    (typeid E, Subscriber p E h) ∈ m_left bus1 ∧
    (∃ bus2,
        unsubscribe (Cookie p (typeid E)) bus1 = Some bus2 ∧
        m_left bus2 = m_left bus ∧
        m_right bus2 = m_right bus) ∧
    (∀ later,
        reachable later →
        ∃ after,
          unsubscribe (Cookie p (typeid E)) later = Some after ∧
          ∀ events,
            publishable events →
            ∃ ws final,
              publish_all events after = Some (ws, final) ∧
              ∀ w, w ∈ ws → Subscriber p E h ∉ w).
Proof.
  intros Hreach Hp Hfresh.
  destruct (reachable_invariant bus Hreach) as (Hq & Heq & Hinv).
  destruct (subscribe_quiescent p E h bus Hq) as (bus1 & Hs & Hl1 & Hr1 & Hq1).
  exists bus1. split; [exact Hs |]. split; [| split].
  - rewrite Hl1, emplace_Permutation. apply elem_of_cons. auto.
  - destruct (unsubscribe_quiescent (Cookie p (typeid E)) bus1 Hq1)
      as (bus2 & Hu & Hl2 & Hr2 & _).
    exists bus2. split; [exact Hu |].
    rewrite Hl2, Hr2, Hl1, Hr1, <- Heq. unfold emplace.
    split; apply (unsubscribe_functor_emplace_at _ _ (Subscriber p E h));
      exact Hfresh.
  - intros later Hlater.
    destruct (reachable_invariant later Hlater)
      as (Hq' & Heq' & Hnodup' & _ & Hkeys').
    destruct (unsubscribe_quiescent (Cookie p (typeid E)) later Hq')
      as (after & Hu & Hl & Hr & _).
    exists after. split; [exact Hu |].
    intros events Hev.
    destruct (publish_all_calls events after Hev) as (ws & final & Hrun & Hcalls).
    exists ws, final. split; [exact Hrun |].
    intros w Hw Hsub.
    destruct (Hcalls w _ Hw Hsub) as [k Hin].
    rewrite active_copy_left in Hin by (rewrite Hl, Hr, Heq'; reflexivity).
    rewrite Hl in Hin.
    pose proof (unsubscribe_functor_removes (Cookie p (typeid E))
                  (m_left later) Hnodup') as Hgone.
    rewrite Forall_forall in Hgone. apply (Hgone _ Hin).
    apply unsubscribe_functor_subset in Hin.
    rewrite Forall_forall in Hkeys'. specialize (Hkeys' _ Hin).
    split; [exact Hkeys' | reflexivity].
Qed.

(** What [publish] calls on a reachable bus. *)
Lemma publish_on_reachable bus Event e chain :
  reachable bus →
  dispatch_chain Event = Some chain →
  ∃ w bus',
    publish Event e bus = Some (w, bus') ∧
    m_left bus = m_right bus ∧
    (∀ sub, sub ∈ w →
       ∃ k, (k, sub) ∈ m_left bus ∧ k = typeid (model_E sub) ∧ k ∈ chain ∧
            accepts sub (delivered_object Event e) = true) ∧
    (∀ k sub, (k, sub) ∈ m_left bus →
       times_called (subscriber_id sub) w
       = if accepts sub (delivered_object Event e)
         then occurrences k chain else 0).
Proof.
  intros Hreach Hchain.
  destruct (reachable_invariant bus Hreach) as (_ & Heq & Hnodup & _ & Hkeys).
  eexists _, _. split; [apply publish_calls, Hchain |].
  rewrite (active_copy_left bus Heq).
  split; [exact Heq |]. split.
  - intros sub Hsub.
    apply elem_of_chain_takers in Hsub as (k & Hk & Hin & Hacc).
    exists k. rewrite Forall_forall in Hkeys.
    split; [exact Hin |]. split; [apply (Hkeys _ Hin) | auto].
  - intros k sub Hin. apply times_called_chain; assumption.
Qed.

Lemma occurrences_absent (k : type_index) (chain : list type_index) :
  k ∉ chain → occurrences k chain = 0.
Proof.
  induction chain as [|k' chain IH]; intros Hk; [reflexivity |].
  apply not_elem_of_cons in Hk as [Hne Hk].
  unfold occurrences in *. rewrite filter_cons, decide_False by congruence.
  apply IH, Hk.
Qed.

End delivery_facts.

Section chain_facts.
Context `{pf : Platform} {Handler : Type}.
Implicit Types (sub : type_erased_subscriber Handler)
               (subs : subs_multimap Handler)
               (bus : basic_eventbus Handler)
               (c : cookie).

Lemma no_chain_not_event (E : class_type) :
  dispatch_as E = None → is_base_of ti_event E = false.
Proof.
  induction E as [|T Base IH|name|name Base IH|Base IH]; simpl; intros HE.
  - discriminate.
  - destruct (dispatch_as Base); [discriminate | exact (IH eq_refl)].
  - reflexivity.
  - exact (IH HE).
  - discriminate.
Qed.

Lemma occurrences_cons (k k' : type_index) (chain : list type_index) :
  occurrences k (k' :: chain)
  = (if decide (k' = k) then 1 else 0) + occurrences k chain.
Proof.
  unfold occurrences. rewrite filter_cons.
  destruct (decide (k' = k)); reflexivity.
Qed.

Lemma accepts_adapter sub E :
  typeid (model_E sub) = typeid E →
  accepts sub {| dynamic_type := adapted_event E |} = true.
Proof.
  intros Hid. unfold accepts, dynamic_cast. rewrite Hid.
  cbn [dynamic_type is_base_of]. rewrite is_base_of_refl, !orb_true_r.
  reflexivity.
Qed.

(** C4, as the code has it -- For a class type [E] without a declared
    dispatch chain, [publish] walks the chain made of the identity of the
    adapter [adapted_event<E>] and of the identity of [E]: every handler
    it calls was subscribed for [E] or for that adapter.  A handler
    subscribed for another class without a declared chain, such as a
    strict base class of [E], is never called, and a handler subscribed
    for [E] itself is called exactly once. *)
Theorem publish_without_chain bus E e :
  reachable bus →
  dispatch_as E = None →
  dispatch_chain E = Some [ti_adapted_event (typeid E); typeid E] ∧
  ∃ w bus',
    publish E e bus = Some (w, bus') ∧
    (∀ sub, sub ∈ w →
       typeid (model_E sub) = typeid E ∨
       typeid (model_E sub) = ti_adapted_event (typeid E)) ∧
    (∀ k sub, (k, sub) ∈ m_left bus →
       dispatch_as (model_E sub) = None →
       typeid (model_E sub) ≠ typeid E →
       times_called (subscriber_id sub) w = 0) ∧
    (∀ k sub, (k, sub) ∈ m_left bus →
       typeid (model_E sub) = typeid E →
       times_called (subscriber_id sub) w = 1).
Proof.
  intros Hreach HE. apply no_chain_not_event in HE.
  pose proof (dispatch_chain_adapted E HE) as Hchain.
  split; [exact Hchain |].
  destruct (publish_on_reachable bus E e _ Hreach Hchain)
    as (w & bus' & Hpub & _ & Hcalled & Htimes).
  destruct (reachable_invariant bus Hreach) as (_ & _ & _ & _ & Hkeys).
  rewrite Forall_forall in Hkeys.
  exists w, bus'. split; [exact Hpub |]. split; [| split].
  - intros sub Hsub. destruct (Hcalled sub Hsub) as (k & _ & -> & Hk & _).
    apply elem_of_cons in Hk as [Hk | Hk]; [right; exact Hk |].
    apply elem_of_cons in Hk as [Hk | Hk]; [left; exact Hk |].
    apply elem_of_nil in Hk. destruct Hk.
  - intros k sub Hin HP Hne. rewrite (Htimes k sub Hin).
    destruct (accepts sub (delivered_object E e)); [|reflexivity].
    pose proof (Hkeys _ Hin) as Hk. simpl in Hk. subst k.
    rewrite !occurrences_cons.
    rewrite decide_False
      by (intros Heq; symmetry in Heq; revert Heq;
          apply not_event_not_adapted, no_chain_not_event, HP).
    rewrite decide_False by congruence. reflexivity.
  - intros k sub Hin Hid. rewrite (Htimes k sub Hin).
    unfold delivered_object. rewrite HE.
    rewrite (accepts_adapter sub E Hid).
    pose proof (Hkeys _ Hin) as Hk. simpl in Hk. subst k. rewrite Hid.
    rewrite !occurrences_cons.
    rewrite decide_False by apply adapted_event_fresh.
    rewrite decide_True by reflexivity. reflexivity.
Qed.

(** C5 -- For an event type [E] with a declared dispatch chain, the chain
    that [publish] walks is the declared chain when [E] is its head and
    the declared chain with [E] put in front otherwise.  In both cases [E]
    is at the head, and the functor of [for_each_type] is called for the
    elements of the chain and for nothing else: the end marker is not
    delivered to.  Only the head is compared with [E]: a handler
    subscribed for [E] is called once for the head and once more for every
    further occurrence of [E] in the declared chain.  When [E] is declared
    in the documented way there is no further occurrence: [E] is in the
    chain exactly once, and a handler subscribed for [E] is called exactly
    once by one [publish] of an [E]. *)
Theorem dispatch_chain_head E Head Tail :
  dispatch_as E = Some (typelist_cons Head Tail) →
  let declared := typelist_cons Head Tail in
  let rest := if decide (typeid E = Head) then Tail else declared in
  dispatch_typelist E
  = Some (if decide (typeid E = Head) then declared
          else typelist_cons (typeid E) declared) ∧
  dispatch_chain E = Some (typeid E :: heads rest) ∧
  (∀ (W : Type) (f : type_index → W → W) (w : W),
      for_each_type (typelist_cons (typeid E) rest) f w
      = foldl (λ w Tid, f Tid w) w (typeid E :: heads rest)) ∧
  (∀ bus e sub,
      reachable bus →
      (typeid E, sub) ∈ m_left bus →
      model_E sub = E →
      ∃ w bus',
        publish E e bus = Some (w, bus') ∧
        times_called (subscriber_id sub) w
        = 1 + occurrences (typeid E) (heads rest) ∧
        (typeid E ∉ heads rest → times_called (subscriber_id sub) w = 1)) ∧
  (documented E = true →
   (typeid E ∉ heads rest) ∧
   occurrences (typeid E) (typeid E :: heads rest) = 1 ∧
   ∀ bus e sub,
     reachable bus →
     (typeid E, sub) ∈ m_left bus →
     model_E sub = E →
     ∃ w bus',
       publish E e bus = Some (w, bus') ∧
       times_called (subscriber_id sub) w = 1).
Proof.
  intros Hdecl declared rest.
  pose proof (dispatch_as_is_event E _ Hdecl) as Hevent.
  assert (Htypes : dispatch_typelist E
                   = Some (if decide (typeid E = Head) then declared
                           else typelist_cons (typeid E) declared))
    by (unfold dispatch_typelist; rewrite Hdecl; reflexivity).
  assert (Hchain : dispatch_chain E = Some (typeid E :: heads rest)).
  { unfold dispatch_chain. rewrite Hevent, Htypes. subst rest declared.
    destruct (decide (typeid E = Head)) as [->|]; reflexivity. }
  assert (Hcount : ∀ bus e sub,
             reachable bus →
             (typeid E, sub) ∈ m_left bus →
             model_E sub = E →
             ∃ w bus',
               publish E e bus = Some (w, bus') ∧
               times_called (subscriber_id sub) w
               = 1 + occurrences (typeid E) (heads rest)).
  { intros bus e sub Hreach Hin Hmodel.
    destruct (publish_on_reachable bus E e _ Hreach Hchain)
      as (w & bus' & Hpub & _ & _ & Htimes).
    exists w, bus'. split; [exact Hpub |].
    assert (Hacc : accepts sub (delivered_object E e) = true)
      by (unfold accepts; rewrite Hmodel, Hevent; reflexivity).
    rewrite (Htimes _ sub Hin), Hacc, occurrences_cons.
    rewrite decide_True by reflexivity. reflexivity. }
  split; [exact Htypes |]. split; [exact Hchain |]. split; [| split].
  - intros W f w. apply for_each_type_heads.
  - intros bus e sub Hreach Hin Hmodel.
    destruct (Hcount bus e sub Hreach Hin Hmodel) as (w & bus' & Hpub & Hw).
    exists w, bus'. split; [exact Hpub |]. split; [exact Hw |].
    intros Hnot. rewrite Hw, (occurrences_absent _ _ Hnot). reflexivity.
  - intros Hdoc.
    pose proof (documented_head_once E Head Tail Hdoc Hdecl) as Honce.
    fold declared in Honce. fold rest in Honce.
    split; [exact Honce |]. split.
    + rewrite occurrences_cons, decide_True by reflexivity.
      rewrite (occurrences_absent _ _ Honce). reflexivity.
    + intros bus e sub Hreach Hin Hmodel.
      destruct (Hcount bus e sub Hreach Hin Hmodel) as (w & bus' & Hpub & Hw).
      exists w, bus'. split; [exact Hpub |].
      rewrite Hw, (occurrences_absent _ _ Honce). reflexivity.
Qed.
End chain_facts.

Section order_facts.
Context `{pf : Platform} {Handler : Type}.
Implicit Types (sub : type_erased_subscriber Handler)
               (subs : subs_multimap Handler)
               (bus : basic_eventbus Handler)
               (c : cookie).

Lemma equal_range_cons k kv subs :
  equal_range k (kv :: subs)
  = if decide (kv.1 = k) then kv :: equal_range k subs
    else equal_range k subs.
Proof. unfold equal_range. rewrite filter_cons. reflexivity. Qed.

Lemma equal_range_app k subs1 subs2 :
  equal_range k (subs1 ++ subs2) = equal_range k subs1 ++ equal_range k subs2.
Proof. unfold equal_range. apply filter_app. Qed.

(** An element emplaced behind its group is, key by key, an element
    appended to the table. *)
Lemma equal_range_emplace_at_back n k sub subs k' :
  length (equal_range k subs) ≤ n →
  equal_range k' (emplace_at n k sub subs)
  = equal_range k' (subs ++ [(k, sub)]).
Proof.
  revert n. induction subs as [|kv subs IH]; intros n Hn; [reflexivity |].
  rewrite equal_range_cons in Hn. simpl.
  destruct (decide (kv.1 = k)) as [Hk | Hk].
  - destruct n as [|n]; [simpl in Hn; lia |].
    rewrite !equal_range_cons. simpl in Hn.
    rewrite (IH n) by lia. reflexivity.
  - rewrite !equal_range_cons. rewrite (IH n) by exact Hn. reflexivity.
Qed.

(** [unsubscribe] acts on the group of its key only, and there as on the
    whole table. *)
Lemma equal_range_unsubscribe_functor c subs k :
  equal_range k (unsubscribe_functor c subs)
  = if decide (k = cookie_ti c) then unsubscribe_functor c (equal_range k subs)
    else equal_range k subs.
Proof.
  induction subs as [|kv subs IH].
  - destruct (decide (k = cookie_ti c)); reflexivity.
  - rewrite unsubscribe_functor_cons, (equal_range_cons k kv subs).
    destruct (decide (cookie_matches c kv)) as [[Hk Hid] | Hm].
    + destruct (decide (k = cookie_ti c)) as [-> | Hne].
      * rewrite decide_True by exact Hk.
        rewrite unsubscribe_functor_cons, decide_True by (split; assumption).
        reflexivity.
      * rewrite decide_False by congruence. reflexivity.
    + rewrite equal_range_cons, IH.
      destruct (decide (kv.1 = k)) as [Hkv | Hkv];
        destruct (decide (k = cookie_ti c)) as [Hc | Hc]; try reflexivity.
      rewrite unsubscribe_functor_cons, decide_False by exact Hm.
      reflexivity.
Qed.

Lemma takers_equal_range e subs1 subs2 k :
  equal_range k subs1 = equal_range k subs2 →
  takers e subs1 k = takers e subs2 k.
Proof. unfold takers. intros ->. reflexivity. Qed.

(** On a platform whose [emplace] puts a new element behind the stored
    ones with an equivalent key, the table holds, key by key, the
    subscriptions in the order in which they were made. *)
Lemma run_operations_order (ops : list (operation Handler)) bus subs :
  quiescent bus →
  m_left bus = m_right bus →
  ∃ bus',
    run_operations ops bus = Some bus' ∧
    m_left bus' = m_right bus' ∧
    ((∀ group, emplace_slot group = length group) →
     (∀ k, equal_range k (m_left bus) = equal_range k subs) →
     ∀ k, equal_range k (m_left bus')
          = equal_range k (foldl in_subscription_order_step subs ops)).
Proof.
  revert bus subs. induction ops as [|op ops IH]; intros bus subs Hq Heq.
  - exists bus. split; [reflexivity |]. split; [exact Heq | auto].
  - destruct op as [p Event h | c]; simpl.
    + destruct (subscribe_quiescent p Event h bus Hq)
        as (bus1 & Hs & Hl & Hr & Hq1).
      rewrite Hs. simpl.
      destruct (IH bus1 (subs ++ [(typeid Event, Subscriber p Event h)]) Hq1)
        as (bus' & Hrun & Heq' & Horder);
        [rewrite Hl, Hr, Heq; reflexivity |].
      exists bus'. split; [exact Hrun |]. split; [exact Heq' |].
      intros Hback Hsame. apply Horder; [exact Hback |].
      intros k. rewrite Hl. unfold emplace.
      rewrite equal_range_emplace_at_back
        by (rewrite Hback, length_fmap; reflexivity).
      rewrite !equal_range_app, Hsame. reflexivity.
    + destruct (unsubscribe_quiescent c bus Hq) as (bus1 & Hu & Hl & Hr & Hq1).
      rewrite Hu. simpl.
      destruct (IH bus1 (unsubscribe_functor c subs) Hq1)
        as (bus' & Hrun & Heq' & Horder);
        [rewrite Hl, Hr, Heq; reflexivity |].
      exists bus'. split; [exact Hrun |]. split; [exact Heq' |].
      intros Hback Hsame. apply Horder; [exact Hback |].
      intros k. rewrite Hl, !equal_range_unsubscribe_functor, Hsame.
      reflexivity.
Qed.

(** C3, as the code has it -- [publish] calls the handlers in the order
    of the dispatch chain, most derived element first, and for one element
    of the chain in the order in which [equal_range] yields the
    subscribers stored under its key.  That is the order in which the
    subscriptions were made when the [emplace] of the container puts a
    new element behind the stored elements with an equivalent key; the
    container is free to do otherwise. *)
Theorem publish_order (ops : list (operation Handler)) Event e chain :
  dispatch_chain Event = Some chain →
  ∃ bus w bus',
    run_operations ops eventbus = Some bus ∧
    publish Event e bus = Some (w, bus') ∧
    m_left bus = m_right bus ∧
    w = concat (takers (delivered_object Event e) (m_left bus) <$> chain) ∧
    ((∀ group, emplace_slot group = length group) →
     w = concat (takers (delivered_object Event e)
                   (in_subscription_order ops) <$> chain)).
Proof.
  intros Hchain.
  destruct (run_operations_order ops eventbus [] (construct_quiescent _) eq_refl)
    as (bus & Hrun & Heq & Horder).
  eexists bus, _, _. split; [exact Hrun |].
  split; [apply publish_calls, Hchain |].
  rewrite (active_copy_left bus Heq).
  split; [exact Heq |]. split; [reflexivity |].
  intros Hback. f_equal.
  apply list_fmap_ext. intros _ k _.
  apply takers_equal_range, Horder; [exact Hback | reflexivity].
Qed.
End order_facts.

Section run_facts.
Context `{pf : Platform} {Handler : Type}.

Lemma run_operations_reachable (ops : list (operation Handler))
    (bus : basic_eventbus Handler) :
  reachable bus →
  fresh_addresses ops bus →
  ∃ bus', run_operations ops bus = Some bus' ∧ reachable bus'.
Proof.
  revert bus. induction ops as [|op ops IH]; intros bus Hreach Hfresh.
  - exists bus. auto.
  - destruct Hfresh as [Hop Hrest]. simpl.
    destruct (run_operation op bus) as [bus1|] eqn:Hrun; [|destruct Hrest].
    simpl. apply IH; [| exact Hrest].
    destruct op as [p Event h | c]; simpl in Hrun.
    + destruct (subscribe p Event h bus) as [[c bus2]|] eqn:Hs; [|discriminate].
      simpl in Hrun. injection Hrun as ->.
      destruct Hop as (Hp & Hl & Hr).
      exact (reachable_subscribe bus p Event h c bus1 Hreach Hp Hl Hr Hs).
    + exact (reachable_unsubscribe bus c bus1 Hreach Hrun).
Qed.
End run_facts.

(** * The scenarios, and the statements at concrete inputs *)

Ltac by_decide := apply (bool_decide_unpack _); vm_compute; exact I.

Ltac fresh_run := cbn; repeat split; by_decide.

Section on_libcxx.
Local Existing Instance libcxx.

Lemma reachable_run (ops : list (operation string)) :
  fresh_addresses ops eventbus →
  reachable (default eventbus (run_operations ops eventbus)).
Proof.
  intros Hfresh.
  destruct (run_operations_reachable ops eventbus reachable_new Hfresh)
    as (bus' & Hrun & Hreach).
  rewrite Hrun. exact Hreach.
Qed.

Lemma scenario_bus_reachable : reachable scenario_bus.
Proof. apply reachable_run. fresh_run. Qed.

Lemma plain_bus_reachable : reachable plain_bus.
Proof. apply reachable_run. fresh_run. Qed.

Lemma modify_keeps_copies_equal_witness :
  Forall (λ f, identical_mutation (projT2 f)) [pack push_seven; pack push_seven] ∧
  ∃ s' : leftright (list nat),
    modify_sequence [pack push_seven; pack push_seven]
                    (construct_in_place (λ _ : unit, [1]) tt) = Some s' ∧
    m_left s' = [7; 7; 1] ∧
    m_left s' = m_right s'.
Proof.
  assert (Hfs : Forall (λ f, identical_mutation (projT2 f))
                       [pack push_seven; pack push_seven])
    by (repeat constructor).
  split; [exact Hfs |].
  destruct (modify_keeps_copies_equal (R := atomic_reader_registry)
              (λ _ : unit, [1]) tt [pack push_seven; pack push_seven] Hfs)
    as (_ & s' & Hrun & Heq).
  exists s'. split; [exact Hrun |]. split; [| exact Heq].
  vm_compute in Hrun. injection Hrun as <-. reflexivity.
Defined.

(** The requirement on the functor is needed: a functor that mutates
    differently on its second call leaves the copies different. *)
Example modify_ticket_diverges :
  ∃ s' : leftright (list nat),
    modify push_ticket (construct [1]) = Some (tt, s') ∧
    m_left s' = [1; 1] ∧ m_right s' = [0; 1].
Proof. eexists. repeat split. Qed.

Lemma observe_arrive_depart_witness :
  registries_in_range busy_container ∧
  nesting nat reentrant_reader ∧
  nesting (list Z) counting_reader ∧
  registry_calls (observe reentrant_reader busy_container).2
  = [Arrive 0; Arrive 0; Arrive 0; Depart 0; Depart 0] ∧
  m_reader_registries (observe reentrant_reader busy_container).2
  = m_reader_registries busy_container ∧
  (observe counting_reader busy_container).1 = returned [2%Z; 0%Z] ∧
  m_reader_registries (observe counting_reader busy_container).2
  = [Registry 1; Registry 0].
Proof.
  assert (Hrange : registries_in_range busy_container)
    by (repeat constructor; simpl; unfold counter_in_range; simpl; lia).
  assert (Hnest : nesting nat reentrant_reader).
  { apply (nesting_observe nat nat interrupted_reader
             (λ _ t s, (returned t, s))).
    - apply nesting_silent. intros t s. split; reflexivity.
    - intros o. apply nesting_silent. intros t s. split; reflexivity. }
  assert (Hcount : nesting (list Z) counting_reader)
    by (apply nesting_silent; intros t s; split; reflexivity).
  split; [exact Hrange |]. split; [exact Hnest |]. split; [exact Hcount |].
  destruct (observe_arrive_depart reentrant_reader busy_container Hrange Hnest)
    as (entered & inner & _ & _ & _ & _ & _ & _ & _ & _ & _ & Hcalls & _ & _
        & _ & Hregs).
  split; [reflexivity |]. split; [exact Hregs |].
  destruct (observe_arrive_depart counting_reader busy_container Hrange Hcount)
    as (entered' & inner' & Harrived & _ & _ & _ & _ & _ & Hresult & _ & _
        & _ & _ & _ & _ & Hregs').
  split; [| exact Hregs'].
  rewrite Hresult. unfold counting_reader. cbn [fst].
  rewrite Harrived. reflexivity.
Defined.

(** The index is read once: the reader above entered through registry 0,
    the index became 1 while it was inside, and it left through
    registry 0. *)
Example observe_departs_where_it_arrived :
  observe interrupted_reader busy_container
  = (thrown "interrupted",
     LeftRight [Registry 1; Registry 0] 1 read_left 5 5
               [Arrive 0; Arrive 0; Depart 0]).
Proof. reflexivity. Qed.

(** The same with a registry of four counters: the thread arrives at and
    departs from the counter its hash selects. *)
Example observe_distributed_registry :
  observe (R := distributed_atomic_reader_registry 4)
          (λ (t : nat) s, (returned t, s)) (construct 5)
  = (returned 5,
     LeftRight [registry_init; registry_init] 0 read_left 5 5
               [Arrive 0; Depart 0]) ∧
  m_counters (arrive (registry_init : distributed_atomic_reader_registry 4))
  = [Counter 0; Counter 0; Counter 0; Counter 1].
Proof. split; reflexivity. Qed.


(** The requirement on the declaration is needed.  [Mislabelled] names
    [Foo], a class that is not one of its bases, as the first argument of
    [polymorphic_event]: the identity of [Foo] is in the dispatch chain of
    [Mislabelled], and publishing a [Mislabelled] does not call the handler
    subscribed for [Foo], because the subscriber for [Foo] is of the kind
    that tries a [dynamic_cast] first. *)
Example publish_skips_failed_cast :
  ∃ bus bus',
    run_operations [op_subscribe 100 Foo "H_Foo"] eventbus = Some bus ∧
    reachable bus ∧
    (typeid Foo, Subscriber 100 Foo "H_Foo") ∈ m_left bus ∧
    dispatch_chain Mislabelled = Some [ti_class "Mislabelled"; typeid Foo] ∧
    occurrences (typeid Foo) [ti_class "Mislabelled"; typeid Foo] = 1 ∧
    publish Mislabelled (Object Mislabelled) bus = Some ([], bus') ∧
    documented Mislabelled = false.
Proof.
  eexists _, _. split; [reflexivity |].
  split; [| split; [| split; [| split; [| split]]]].
  - apply (reachable_run [op_subscribe 100 Foo "H_Foo"]). fresh_run.
  - cbn. apply elem_of_cons. left. reflexivity.
  - reflexivity.
  - reflexivity.
  - reflexivity.
  - reflexivity.
Qed.

Lemma publish_order_witness :
  dispatch_chain derived_event
  = Some [ti_class "derived_event"; ti_class "base_event"] ∧
  ∃ bus w bus',
    run_operations scenario_ops eventbus = Some bus ∧
    publish derived_event (Object derived_event) bus = Some (w, bus') ∧
    m_left bus = m_right bus ∧
    w = concat (takers (delivered_object derived_event (Object derived_event))
                  (m_left bus)
                <$> [ti_class "derived_event"; ti_class "base_event"]) ∧
    ((∀ group, emplace_slot group = length group) →
     w = concat (takers (delivered_object derived_event (Object derived_event))
                   (in_subscription_order scenario_ops)
                 <$> [ti_class "derived_event"; ti_class "base_event"])).
Proof.
  split; [reflexivity |].
  apply (publish_order scenario_ops derived_event (Object derived_event)
           [ti_class "derived_event"; ti_class "base_event"]).
  reflexivity.
Defined.

Lemma publish_without_chain_witness :
  reachable plain_bus ∧
  dispatch_as PlainChild = None ∧
  dispatch_chain PlainChild
  = Some [ti_adapted_event (ti_class "PlainChild"); ti_class "PlainChild"] ∧
  ∃ w bus',
    publish PlainChild (Object PlainChild) plain_bus = Some (w, bus') ∧
    handler <$> w = ["H_C"].
Proof.
  split; [exact plain_bus_reachable |]. split; [reflexivity |].
  destruct (publish_without_chain plain_bus PlainChild
              (Object PlainChild) plain_bus_reachable eq_refl)
    as (Hchain & w & bus' & Hpub & _).
  split; [exact Hchain |].
  exists w, bus'. split; [exact Hpub |].
  vm_compute in Hpub. injection Hpub as <- _. reflexivity.
Defined.

(** C4, as stated, fails: publishing a [PlainChild] calls a handler that
    was subscribed for [adapted_event<PlainChild>], which is not the type
    identity of [PlainChild]. *)
Lemma publish_reaches_adapter_subscriber :
  ∃ bus bus',
    run_operations adapter_ops eventbus = Some bus ∧
    reachable bus ∧
    dispatch_as PlainChild = None ∧
    publish PlainChild (Object PlainChild) bus
    = Some ([Subscriber 100 (adapted_event PlainChild) "H_A"], bus') ∧
    typeid (adapted_event PlainChild) ≠ typeid PlainChild.
Proof.
  eexists _, _. split; [reflexivity |]. split; [| split; [| split]].
  - apply (reachable_run adapter_ops). fresh_run.
  - reflexivity.
  - reflexivity.
  - discriminate.
Qed.

Lemma dispatch_chain_head_witness :
  documented very_derived_event = true ∧
  dispatch_as very_derived_event
  = Some (typelist_cons (ti_class "derived_event")
            (typelist_cons (ti_class "base_event") null_t)) ∧
  dispatch_typelist very_derived_event
  = Some (typelist_cons (ti_class "very_derived_event")
            (typelist_cons (ti_class "derived_event")
               (typelist_cons (ti_class "base_event") null_t))) ∧
  dispatch_chain very_derived_event
  = Some [ti_class "very_derived_event"; ti_class "derived_event";
          ti_class "base_event"] ∧
  occurrences (ti_class "very_derived_event")
    [ti_class "very_derived_event"; ti_class "derived_event";
     ti_class "base_event"] = 1.
Proof.
  split; [reflexivity |]. split; [reflexivity |].
  destruct (dispatch_chain_head (Handler := string)
              very_derived_event (ti_class "derived_event")
              (typelist_cons (ti_class "base_event") null_t) eq_refl)
    as (Htypes & Hchain & _ & _ & Hdocumented).
  split; [exact Htypes |]. split; [exact Hchain |].
  exact (proj1 (proj2 (Hdocumented eq_refl))).
Defined.

(** The requirement on the declaration is needed.  [Early] names [Echo],
    not itself, as the first argument of [polymorphic_event], so that the
    declared chain of [Echo] has [Echo] at its head and once more behind
    it; the chain is used as it is, and one [publish] of an [Echo] calls
    the handler subscribed for [Echo] twice. *)
Example publish_delivers_twice :
  ∃ bus bus',
    run_operations [op_subscribe 100 Echo "H_E"] eventbus = Some bus ∧
    reachable bus ∧
    dispatch_as Echo
    = Some (typelist_cons (typeid Echo) (typelist_cons (typeid Echo) null_t)) ∧
    dispatch_chain Echo = Some [typeid Echo; typeid Echo] ∧
    publish Echo (Object Echo) bus
    = Some ([Subscriber 100 Echo "H_E"; Subscriber 100 Echo "H_E"], bus') ∧
    documented Echo = false.
Proof.
  eexists _, _. split; [reflexivity |]. split; [| split; [| split; [| split]]].
  - apply (reachable_run [op_subscribe 100 Echo "H_E"]). fresh_run.
  - reflexivity.
  - reflexivity.
  - reflexivity.
  - reflexivity.
Qed.

Lemma subscribe_unsubscribe_round_trip_witness :
  reachable scenario_bus ∧
  300%Z ≠ 0%Z ∧
  (300%Z ∉ identities (m_left scenario_bus)) ∧
  ∃ bus1 bus2,
    subscribe 300 base_event "H_B2" scenario_bus
    = Some (Cookie 300 (ti_class "base_event"), bus1) ∧
    unsubscribe (Cookie 300 (ti_class "base_event")) bus1 = Some bus2 ∧
    m_left bus2 = m_left scenario_bus ∧
    m_right bus2 = m_right scenario_bus.
Proof.
  assert (Hp : 300%Z ≠ 0%Z) by by_decide.
  assert (Hfresh : 300%Z ∉ identities (m_left scenario_bus)) by by_decide.
  split; [exact scenario_bus_reachable |]. split; [exact Hp |].
  split; [exact Hfresh |].
  destruct (subscribe_unsubscribe_round_trip scenario_bus 300
              base_event "H_B2" scenario_bus_reachable Hp Hfresh)
    as (bus1 & Hs & _ & (bus2 & Hu & Hl & Hr) & _).
  exists bus1, bus2. auto.
Defined.

Lemma unsubscribe_idempotent_witness :
  reachable scenario_bus ∧
  ∃ once twice,
    unsubscribe (Cookie 100 (ti_class "base_event")) scenario_bus = Some once ∧
    unsubscribe (Cookie 100 (ti_class "base_event")) once = Some twice ∧
    m_left twice = m_left once ∧
    m_right twice = m_right once.
Proof.
  split; [exact scenario_bus_reachable |].
  destruct (unsubscribe_idempotent scenario_bus
              (Cookie 100 (ti_class "base_event")) scenario_bus_reachable)
    as (once & twice & H1 & H2 & Hl & Hr & _).
  exists once, twice. auto.
Defined.

Lemma unsubscribe_erases_first_match_witness :
  quiescent scenario_bus ∧
  ∃ bus',
    unsubscribe (Cookie 100 (ti_class "base_event")) scenario_bus = Some bus' ∧
    erased_first_match (Cookie 100 (ti_class "base_event"))
                       (m_left scenario_bus) (m_left bus') ∧
    erased_first_match (Cookie 100 (ti_class "base_event"))
                       (m_right scenario_bus) (m_right bus').
Proof.
  assert (Hq : quiescent scenario_bus).
  { split; [reflexivity |]. split; [| by_decide].
    repeat constructor. }
  split; [exact Hq |].
  apply (unsubscribe_erases_first_match scenario_bus
           (Cookie 100 (ti_class "base_event")) Hq).
Defined.

Lemma unsubscribe_default_cookie_witness :
  reachable scenario_bus ∧
  ∃ bus',
    unsubscribe cookie_default scenario_bus = Some bus' ∧
    m_left bus' = m_left scenario_bus ∧
    m_right bus' = m_right scenario_bus.
Proof.
  split; [exact scenario_bus_reachable |].
  destruct (unsubscribe_default_cookie scenario_bus scenario_bus_reachable)
    as (_ & _ & _ & Hnoop).
  exact Hnoop.
Defined.
End on_libcxx.

Section on_libstdcxx.
Local Existing Instance libstdcxx.

(** C3, as stated, fails where [emplace] links a new element in front of
    the stored ones with an equivalent key, as libstdc++ does: of two
    handlers subscribed for the same event type, the one subscribed second
    is called first. *)
Lemma publish_order_libstdcxx :
  ∃ bus w bus',
    run_operations first_second_ops eventbus = Some bus ∧
    handler ∘ snd <$> in_subscription_order first_second_ops
    = ["first"; "second"] ∧
    publish base_event (Object base_event) bus = Some (w, bus') ∧
    handler <$> w = ["second"; "first"].
Proof. eexists _, _, _. repeat split. Qed.
End on_libstdcxx.

(** * Further properties of the reader registries *)

Section registry_run_facts.
Context `{pf : Platform}.

Lemma wrap_wrap_add (x y : Z) : wrap (wrap x + y) = wrap (x + y).
Proof. unfold wrap. apply Zplus_mod_idemp_l. Qed.

Lemma counter_in_range_zero : (0 ≤ uint_fast32_bits)%Z → counter_in_range 0.
Proof.
  intros Hbits. unfold counter_in_range.
  pose proof (Z.pow_pos_nonneg 2 uint_fast32_bits) as Hpow. lia.
Qed.

Lemma atomic_registry_run_count (steps : list registry_step)
    (r : atomic_reader_registry) :
  counter_in_range (m_count r) →
  m_count (registry_run steps r) = wrap (m_count r + net_arrivals steps).
Proof.
  revert r. induction steps as [|[|] steps IH]; intros r Hr; simpl.
  - rewrite Z.add_0_r. symmetry. apply Z.mod_small. exact Hr.
  - rewrite IH by (apply (wrap_in_range _ (m_count r)), Hr).
    simpl. rewrite wrap_wrap_add. f_equal. lia.
  - rewrite IH by (apply (wrap_in_range _ (m_count r)), Hr).
    simpl. rewrite wrap_wrap_add. f_equal. lia.
Qed.

(** X1 -- The counter of an [atomic_reader_registry] holds the arrivals
    less the departures modulo the range of [std::uint_fast32_t], in
    whatever order the calls come (a departure before its arrival wraps
    around and is made up for later).  So [empty()] answers true when the
    calls are balanced, and false while between one and [2^bits - 1]
    readers are inside. *)
Theorem atomic_registry_empty_iff_balanced (steps : list registry_step) :
  (0 ≤ uint_fast32_bits)%Z →
  let r : atomic_reader_registry := registry_run steps registry_init in
  m_count r = wrap (net_arrivals steps) ∧
  (empty r = true ↔ wrap (net_arrivals steps) = 0%Z) ∧
  (net_arrivals steps = 0%Z → empty r = true) ∧
  ((0 < net_arrivals steps < 2 ^ uint_fast32_bits)%Z → empty r = false).
Proof.
  intros Hbits r.
  assert (Hcount : m_count r = wrap (net_arrivals steps)).
  { subst r. rewrite atomic_registry_run_count
      by (apply counter_in_range_zero, Hbits).
    reflexivity. }
  assert (Hiff : empty r = true ↔ wrap (net_arrivals steps) = 0%Z).
  { simpl. unfold atomic_empty. rewrite Hcount, Z.eqb_eq.
    split; intros Heq; congruence. }
  split; [exact Hcount |]. split; [exact Hiff |]. split.
  - intros Hnet. apply Hiff. rewrite Hnet. unfold wrap. apply Z.mod_0_l.
    pose proof (Z.pow_pos_nonneg 2 uint_fast32_bits). lia.
  - intros Hnet. apply not_true_is_false. intros Hempty.
    apply Hiff in Hempty. unfold wrap in Hempty.
    rewrite Z.mod_small in Hempty by lia. lia.
Qed.

Lemma alter_decr_in_range (cs : list counter) (i : nat) :
  Forall (λ c, counter_in_range (m_value c)) cs →
  Forall (λ c, counter_in_range (m_value c)) (alter decr i cs).
Proof.
  intros Hcs. revert i.
  induction Hcs as [|c cs Hc Hcs IH]; intros [|i]; simpl.
  - constructor.
  - constructor.
  - constructor; [apply (wrap_in_range _ (m_value c)), Hc | exact Hcs].
  - constructor; [exact Hc | apply IH].
Qed.

Lemma distributed_registry_run_counters (N : nat) (steps : list registry_step)
    (r : distributed_atomic_reader_registry N) :
  Forall (λ c, counter_in_range (m_value c)) (m_counters r) →
  m_counters (registry_run steps r)
  = alter (λ c, Counter (wrap (m_value c + net_arrivals steps)))
          (this_thread_hash mod N) (m_counters r).
Proof.
  revert r. induction steps as [|[|] steps IH]; intros r Hr; simpl.
  - symmetry. transitivity (alter (λ c : counter, c) (this_thread_hash mod N)
                              (m_counters r)).
    + apply list_alter_ext; [| reflexivity].
      intros [v] Hv. simpl. f_equal. rewrite Z.add_0_r.
      apply Z.mod_small.
      rewrite Forall_forall in Hr. apply (Hr (Counter v)).
      eapply list_elem_of_lookup_2, Hv.
    + apply list_alter_id. reflexivity.
  - rewrite IH by (apply alter_incr_in_range, Hr). simpl.
    rewrite list_alter_alter_eq. apply list_alter_ext; [| reflexivity].
    intros [v] _. simpl. f_equal. rewrite wrap_wrap_add. f_equal. lia.
  - rewrite IH by (apply alter_decr_in_range, Hr). simpl.
    rewrite list_alter_alter_eq. apply list_alter_ext; [| reflexivity].
    intros [v] _. simpl. f_equal. rewrite wrap_wrap_add. f_equal. lia.
Qed.

Lemma alter_replicate_zero (N i : nat) (v : Z) :
  i < N →
  alter (λ c, Counter (wrap (m_value c + v))) i (replicate N (Counter 0))
  = <[i := Counter (wrap v)]> (replicate N (Counter 0)).
Proof.
  revert i. induction N as [|N IH]; intros [|i] Hi; simpl; try lia.
  - reflexivity.
  - f_equal. apply IH. lia.
Qed.

Lemma none_nonzero_insert (N i : nat) (v : Z) :
  i < N →
  existsb (λ ctr, negb (relaxed_read ctr =? 0)%Z)
          (<[i := Counter v]> (replicate N (Counter 0)))
  = negb (v =? 0)%Z.
Proof.
  revert i. induction N as [|N IH]; intros [|i] Hi; simpl; try lia.
  - assert (Hrest : existsb (λ ctr, negb (relaxed_read ctr =? 0)%Z)
                            (replicate N (Counter 0)) = false)
      by (clear; induction N; simpl; auto).
    rewrite Hrest. apply orb_false_r.
  - apply IH. lia.
Qed.

(** X2 -- In a [distributed_atomic_reader_registry<N>] the calls of a
    thread all go to the one counter that the hash of its identity
    selects: after any run of [arrive] and [depart] calls of the thread
    that counter holds the arrivals less the departures, modulo the range
    of [std::uint_fast32_t], and every other counter is still zero;
    [empty()] is true exactly when that one counter is zero. *)
Theorem distributed_registry_one_counter (N : nat)
    (steps : list registry_step) :
  0 < N →
  (0 ≤ uint_fast32_bits)%Z →
  let r : distributed_atomic_reader_registry N :=
    registry_run steps registry_init in
  m_counters r
  = <[this_thread_hash mod N := Counter (wrap (net_arrivals steps))]>
      (replicate N (Counter 0)) ∧
  (empty r = true ↔ wrap (net_arrivals steps) = 0%Z).
Proof.
  intros HN Hbits r.
  assert (Hi : this_thread_hash mod N < N)
    by (apply Nat.mod_upper_bound; lia).
  assert (Hcounters : m_counters r
            = <[this_thread_hash mod N := Counter (wrap (net_arrivals steps))]>
                (replicate N (Counter 0))).
  { subst r. rewrite distributed_registry_run_counters.
    - simpl. apply alter_replicate_zero, Hi.
    - simpl. apply Forall_replicate. simpl.
      apply counter_in_range_zero, Hbits. }
  split; [exact Hcounters |].
  simpl. unfold distributed_empty. rewrite Hcounters.
  rewrite none_nonzero_insert by exact Hi.
  rewrite negb_involutive. apply Z.eqb_eq.
Qed.
End registry_run_facts.

(** * Further properties of the Left-Right container *)

Section modify_facts.
Context {T R : Type} `{RR : ReaderRegistry R}.

Lemma modify_returns_iff {A : Type} (f : functor T A) (s : basic_leftright T R) :
  length (m_reader_registries s) = 2 →
  m_registry_index s < 2 →
  is_Some (modify f s) ↔ Forall (λ r, empty r = true) (m_reader_registries s).
Proof.
  destruct s as [regs idx side l r log]. simpl. intros Hlen Hidx.
  destruct regs as [|r0 [|r1 [|r2 regs]]]; try discriminate Hlen.
  assert (Hall : Forall (λ r, empty r = true) [r0; r1]
                 ↔ empty r0 = true ∧ empty r1 = true).
  { split.
    - intros HF. apply Forall_cons in HF as [H0 HF].
      apply Forall_cons in HF as [H1 _]. auto.
    - intros [H0 H1]. repeat constructor; assumption. }
  rewrite Hall. clear Hall.
  unfold modify, toggle_reader_registry. simpl.
  destruct idx as [|[|idx]]; [| | lia]; destruct side; simpl;
    destruct (call f (captured f) _) as [c1 [x res1]]; simpl;
    destruct (empty r0) eqn:H0, (empty r1) eqn:H1; simpl;
    try destruct (call f c1 _) as [c2 [y res2]];
    split;
    try (intros [v Hv]; discriminate Hv);
    try (intros [Ha Hb]; discriminate);
    try (intros _; split; reflexivity);
    try (intros _; eexists; reflexivity).
Qed.

(** X3 -- [modify] returns exactly when both reader registries are empty:
    it returns on a container without readers, and it waits for ever, in
    [toggle_reader_registry], as long as a registry holds a reader that
    does not leave. *)
Theorem modify_returns_iff_no_reader {A : Type} (f : functor T A)
    (s : basic_leftright T R) :
  length (m_reader_registries s) = 2 →
  m_registry_index s < 2 →
  is_Some (modify f s) ↔ Forall (λ r, empty r = true) (m_reader_registries s).
Proof. apply modify_returns_iff. Qed.

Context `{!ReaderRegistryLaws R}.

(** X5 -- What [modify] has written, [observe] reads: after [modify] with
    a functor [g] on a container whose two copies are equal, [modify]
    returns the result of [g], and every later [observe] hands its functor
    the value that [g] made. *)
Theorem observe_reads_what_modify_wrote {A : Type} (g : T → T * A)
    (s : basic_leftright T R) :
  quiescent s →
  m_left s = m_right s →
  ∃ s',
    modify (stateless g) s = Some ((g (m_left s)).2, s') ∧
    ∀ (B : Type) (look : T → B),
      (observe (λ t s0, (returned (look t), s0)) s').1
      = returned (look (g (m_left s)).1).
Proof.
  intros Hq Heq.
  destruct (modify_stateless g s Hq) as (s' & Hm & Hl & Hr & _).
  exists s'. split.
  - rewrite Hm. destruct (m_leftright s); [| rewrite Heq]; reflexivity.
  - intros B look. unfold observe. simpl.
    destruct (m_leftright s'); simpl; [rewrite Hl | rewrite Hr, <- Heq];
      reflexivity.
Qed.
End modify_facts.

Section modify_inside_observe.
Context `{pf : Platform} {T : Type}.

Lemma wrap_one : (0 < uint_fast32_bits)%Z → wrap 1 = 1%Z.
Proof.
  intros Hbits. unfold wrap. apply Z.mod_small.
  assert (2 ^ 1 ≤ 2 ^ uint_fast32_bits)%Z
    by (apply Z.pow_le_mono_r; lia).
  lia.
Qed.

(** X4 -- A thread that is inside [observe] must not call [modify] on the
    same container: in the state in which [observe] runs its functor, the
    reader is counted in the current registry, and [modify] never
    returns.  [subscribe] and [unsubscribe] are such calls of [modify],
    and a handler runs inside the [observe] of [publish]. *)
Theorem modify_inside_observe_never_returns {A : Type} (f : functor T A)
    (s : leftright T) :
  (0 < uint_fast32_bits)%Z →
  quiescent s →
  modify f (scoped_read_indication (m_registry_index s) s) = None.
Proof.
  intros Hbits (Hlen & Hempty & Hidx).
  destruct (modify f (scoped_read_indication (m_registry_index s) s))
    as [res|] eqn:Hm; [| reflexivity].
  exfalso.
  assert (Hsome : is_Some (modify f (scoped_read_indication
                                       (m_registry_index s) s)))
    by (rewrite Hm; eauto).
  apply modify_returns_iff in Hsome;
    [| simpl; rewrite length_alter; exact Hlen | exact Hidx].
  simpl in Hsome.
  destruct (lookup_lt_is_Some_2 (m_reader_registries s) (m_registry_index s))
    as [r Hr]; [lia |].
  rewrite Forall_forall in Hempty, Hsome.
  assert (Hr0 : m_count r = 0%Z).
  { pose proof (Hempty r (list_elem_of_lookup_2 _ _ _ Hr)) as He.
    simpl in He. unfold atomic_empty in He. apply Z.eqb_eq in He. auto. }
  assert (Hin : atomic_arrive r
                ∈ alter atomic_arrive (m_registry_index s)
                        (m_reader_registries s)).
  { apply (list_elem_of_lookup_2 _ (m_registry_index s)).
    rewrite list_lookup_alter_eq, Hr. reflexivity. }
  specialize (Hsome _ Hin).
  change (atomic_empty (atomic_arrive r) = true) in Hsome.
  unfold atomic_empty, atomic_arrive in Hsome. cbn [m_count] in Hsome.
  rewrite Hr0 in Hsome. change (0 + 1)%Z with 1%Z in Hsome.
  rewrite (wrap_one Hbits) in Hsome. discriminate.
Qed.
End modify_inside_observe.

(** * Further properties of the event bus *)

Section bus_facts.
Context `{pf : Platform} {Handler : Type}.
Implicit Types (sub : type_erased_subscriber Handler)
               (subs : subs_multimap Handler)
               (bus : basic_eventbus Handler)
               (c : cookie).

Lemma quiescent_in_range bus :
  (0 ≤ uint_fast32_bits)%Z → quiescent bus → registries_in_range bus.
Proof.
  intros Hbits (_ & Hempty & _). unfold registries_in_range.
  eapply Forall_impl; [exact Hempty |].
  intros r Hr. simpl in *. unfold atomic_empty in Hr.
  apply Z.eqb_eq in Hr. rewrite <- Hr. apply counter_in_range_zero, Hbits.
Qed.

(** X6 -- [publish] only reads: it leaves both copies of the subscriber
    table, the side that is read and the registry index as they were, and
    it leaves the reader registries empty again, so that a [subscribe] or
    [unsubscribe] that follows does not wait. *)
Theorem publish_leaves_bus bus Event e chain :
  (0 ≤ uint_fast32_bits)%Z →
  quiescent bus →
  dispatch_chain Event = Some chain →
  ∃ w bus',
    publish Event e bus = Some (w, bus') ∧
    m_left bus' = m_left bus ∧
    m_right bus' = m_right bus ∧
    m_leftright bus' = m_leftright bus ∧
    m_registry_index bus' = m_registry_index bus ∧
    m_reader_registries bus' = m_reader_registries bus ∧
    (∀ p E h, is_Some (subscribe p E h bus')) ∧
    (∀ c, is_Some (unsubscribe c bus')).
Proof.
  intros Hbits Hq Hchain.
  pose proof (quiescent_in_range bus Hbits Hq) as Hrange.
  eexists _, _. split; [apply publish_calls, Hchain |].
  assert (Hregs : m_reader_registries
                    (scoped_read_indication_end (m_registry_index bus)
                       (scoped_read_indication (m_registry_index bus) bus))
                  = m_reader_registries bus)
    by exact (alter_depart_arrive (m_reader_registries bus)
                (m_registry_index bus) Hrange).
  assert (Hq' : quiescent
                  (scoped_read_indication_end (m_registry_index bus)
                     (scoped_read_indication (m_registry_index bus) bus))).
  { destruct Hq as (Hlen & Hempty & Hidx). unfold quiescent.
    rewrite Hregs. auto. }
  repeat (split; [first [reflexivity | exact Hregs] |]).
  split.
  - intros p E h.
    destruct (subscribe_quiescent p E h _ Hq') as (b & Hs & _). rewrite Hs. eauto.
  - intros c.
    destruct (unsubscribe_quiescent c _ Hq') as (b & Hu & _). rewrite Hu. eauto.
Qed.

Lemma chain_contains_self (E : class_type) (chain : list type_index) :
  dispatch_chain E = Some chain → 1 ≤ occurrences (typeid E) chain.
Proof.
  unfold dispatch_chain.
  destruct (is_base_of ti_event E) eqn:HE.
  - unfold dispatch_typelist.
    destruct (dispatch_as E) as [[|Head Tail]|]; try discriminate.
    destruct (decide (typeid E = Head)) as [Heq|Hne]; simpl;
      intros Hchain; injection Hchain as <-;
      rewrite occurrences_cons.
    + rewrite decide_True by congruence. lia.
    + rewrite decide_True by reflexivity. lia.
  - intros Hchain.
    pose proof (dispatch_chain_adapted E HE) as Had.
    unfold dispatch_chain in Had. rewrite HE in Had.
    rewrite Had in Hchain. injection Hchain as <-.
    rewrite !occurrences_cons. rewrite (decide_True (P := typeid E = typeid E))
      by reflexivity.
    lia.
Qed.

Lemma accepts_own (p : Z) (E : class_type) (h : Handler) (e : object) :
  accepts (Subscriber p E h) (delivered_object E e) = true.
Proof.
  unfold delivered_object.
  destruct (is_base_of ti_event E) eqn:HE.
  - unfold accepts. simpl. rewrite HE. reflexivity.
  - apply accepts_adapter. reflexivity.
Qed.

(** X7 -- A handler that has just been subscribed for [E] is called when
    an [E] is published: once for every occurrence of [E] in the chain
    of [E], which is at least once.  The subscription changes nothing for
    the subscribers that were there: each is called as often as it would
    have been without it. *)
Theorem subscribe_then_publish bus (p : Z) E (h : Handler) e chain :
  reachable bus →
  p ≠ 0%Z →
  p ∉ identities (m_left bus) →
  dispatch_chain E = Some chain →
  ∃ bus1 w bus2 w0 bus0,
    subscribe p E h bus = Some (Cookie p (typeid E), bus1) ∧
    publish E e bus1 = Some (w, bus2) ∧
    publish E e bus = Some (w0, bus0) ∧
    times_called p w0 = 0 ∧
    times_called p w = occurrences (typeid E) chain ∧
    1 ≤ times_called p w ∧
    ∀ k sub, (k, sub) ∈ m_left bus →
      times_called (subscriber_id sub) w = times_called (subscriber_id sub) w0.
Proof.
  intros Hreach Hp Hfresh Hchain.
  destruct (reachable_invariant bus Hreach) as (Hq & Heq & Hinv).
  destruct (subscribe_quiescent p E h bus Hq) as (bus1 & Hs & Hl1 & Hr1 & Hq1).
  assert (Hreach1 : reachable bus1).
  { eapply reachable_subscribe; eauto. rewrite <- Heq. exact Hfresh. }
  destruct (publish_on_reachable bus1 E e chain Hreach1 Hchain)
    as (w & bus2 & Hpub1 & _ & _ & Htimes1).
  destruct (publish_on_reachable bus E e chain Hreach Hchain)
    as (w0 & bus0 & Hpub0 & _ & Hcalled0 & Htimes0).
  assert (Hnew : (typeid E, Subscriber p E h) ∈ m_left bus1)
    by (rewrite Hl1, emplace_Permutation; apply elem_of_cons; auto).
  assert (Hcount : times_called p w = occurrences (typeid E) chain).
  { pose proof (Htimes1 _ _ Hnew) as Ht. simpl in Ht.
    rewrite accepts_own in Ht. exact Ht. }
  exists bus1, w, bus2, w0, bus0.
  split; [exact Hs |]. split; [exact Hpub1 |]. split; [exact Hpub0 |].
  split; [| split; [exact Hcount | split]].
  - unfold times_called.
    assert (Hnone : ∀ l : calls Handler,
               (∀ sub, sub ∈ l → subscriber_id sub ≠ p) →
               filter (λ sub, subscriber_id sub = p) l = []).
    { clear. induction l as [|x l IH]; intros Hl; [reflexivity |].
      rewrite filter_cons, decide_False
        by (apply Hl, elem_of_cons; auto).
      apply IH. intros sub Hsub. apply Hl, elem_of_cons. auto. }
    rewrite Hnone; [reflexivity |].
    intros sub Hsub Hid. destruct (Hcalled0 sub Hsub) as (k & Hin & _).
    apply Hfresh. rewrite <- Hid.
    apply list_elem_of_fmap. exists (k, sub). auto.
  - rewrite Hcount. apply chain_contains_self, Hchain.
  - intros k sub Hin.
    rewrite (Htimes0 k sub Hin).
    apply Htimes1. rewrite Hl1, emplace_Permutation.
    apply elem_of_cons. auto.
Qed.

(** X8 -- Deriving an event type from an event type [Base] puts the new
    type in front of the chain that [Base] declares, whether the new type
    derives through [polymorphic_event<Derived, Base>] or directly from
    [Base].  When [Base] is at the head of its own chain, publishing an
    object as [Derived] calls the subscribers for [Derived] and then the
    very handlers that publishing it as [Base] calls, in the same order. *)
Theorem derived_event_extends_chain (name : string) (Base : class_type)
    (Head : type_index) (Tail : typelist) :
  dispatch_as Base = Some (typelist_cons Head Tail) →
  let declared := typelist_cons Head Tail in
  let Derived := derived name (polymorphic_event (ti_class name) Base) in
  dispatch_chain Derived = Some (ti_class name :: heads declared) ∧
  (Head ≠ ti_class name →
   dispatch_chain (derived name Base) = Some (ti_class name :: heads declared)) ∧
  (typeid Base = Head →
   ∀ bus e,
     ∃ w_base bus_base bus_derived,
       publish Base e bus = Some (w_base, bus_base) ∧
       publish Derived e bus
       = Some (takers e (active_copy bus) (ti_class name) ++ w_base,
               bus_derived)).
Proof.
  intros Hdecl declared Derived.
  pose proof (dispatch_as_is_event Base _ Hdecl) as Hevent.
  assert (HD : is_base_of ti_event Derived = true)
    by (subst Derived; simpl; rewrite Hevent; reflexivity).
  assert (Hchain : dispatch_chain Derived
                   = Some (ti_class name :: heads declared)).
  { unfold dispatch_chain. rewrite HD. unfold dispatch_typelist.
    subst Derived. simpl. rewrite Hdecl. simpl.
    rewrite decide_True by reflexivity. reflexivity. }
  split; [exact Hchain |]. split.
  - intros Hne. unfold dispatch_chain.
    assert (HB : is_base_of ti_event (derived name Base) = true)
      by (simpl; rewrite Hevent; reflexivity).
    rewrite HB. unfold dispatch_typelist. simpl. rewrite Hdecl.
    rewrite decide_False by congruence. reflexivity.
  - intros Hhead bus e.
    assert (HchainB : dispatch_chain Base = Some (heads declared)).
    { unfold dispatch_chain. rewrite Hevent. unfold dispatch_typelist.
      rewrite Hdecl. rewrite decide_True by exact Hhead. reflexivity. }
    eexists _, _, _.
    split; [apply publish_calls, HchainB |].
    rewrite (publish_calls Derived e bus _ Hchain).
    unfold delivered_object. rewrite HD, Hevent. reflexivity.
Qed.

(** X9 -- A cookie does not outlive its subscription safely.  Once
    [unsubscribe] has freed a subscriber, a later [subscribe] for the same
    event type may be given the same address; it then returns the very
    same cookie, and [unsubscribe] with the old cookie takes the new
    subscription out. *)
Theorem stale_cookie_removes_new_subscription bus (p : Z) E (h h' : Handler) :
  reachable bus →
  p ≠ 0%Z →
  p ∉ identities (m_left bus) →
  ∃ c bus1 bus2 c' bus3 bus4,
    subscribe p E h bus = Some (c, bus1) ∧
    unsubscribe c bus1 = Some bus2 ∧
    (p ∉ identities (m_left bus2)) ∧
    (p ∉ identities (m_right bus2)) ∧
    subscribe p E h' bus2 = Some (c', bus3) ∧
    c' = c ∧
    (typeid E, Subscriber p E h') ∈ m_left bus3 ∧
    unsubscribe c bus3 = Some bus4 ∧
    m_left bus4 = m_left bus ∧
    m_right bus4 = m_right bus.
Proof.
  intros Hreach Hp Hfresh.
  destruct (reachable_invariant bus Hreach) as (Hq & Heq & Hinv).
  destruct (subscribe_quiescent p E h bus Hq) as (bus1 & Hs1 & Hl1 & Hr1 & Hq1).
  destruct (unsubscribe_quiescent (Cookie p (typeid E)) bus1 Hq1)
    as (bus2 & Hu2 & Hl2 & Hr2 & Hq2).
  assert (Hback : ∀ (g : Handler) subs,
             p ∉ identities subs →
             unsubscribe_functor (Cookie p (typeid E))
               (emplace (typeid E) (Subscriber p E g) subs) = subs).
  { intros g subs Hsubs. unfold emplace.
    apply (unsubscribe_functor_emplace_at _ _ (Subscriber p E g)), Hsubs. }
  assert (Hl2' : m_left bus2 = m_left bus)
    by (rewrite Hl2, Hl1; apply Hback, Hfresh).
  assert (Hr2' : m_right bus2 = m_right bus)
    by (rewrite Hr2, Hr1, <- Heq; apply Hback, Hfresh).
  destruct (subscribe_quiescent p E h' bus2 Hq2) as (bus3 & Hs3 & Hl3 & Hr3 & Hq3).
  destruct (unsubscribe_quiescent (Cookie p (typeid E)) bus3 Hq3)
    as (bus4 & Hu4 & Hl4 & Hr4 & _).
  exists (Cookie p (typeid E)), bus1, bus2, (Cookie p (typeid E)), bus3, bus4.
  split; [exact Hs1 |]. split; [exact Hu2 |].
  split; [rewrite Hl2'; exact Hfresh |].
  split; [rewrite Hr2', <- Heq; exact Hfresh |].
  split; [exact Hs3 |]. split; [reflexivity |].
  split; [rewrite Hl3, emplace_Permutation; apply elem_of_cons; auto |].
  split; [exact Hu4 |].
  split.
  - rewrite Hl4, Hl3, Hl2'. apply Hback, Hfresh.
  - rewrite Hr4, Hr3, Hr2', <- Heq. apply Hback, Hfresh.
Qed.

Lemma fresh_allocations_addresses (ops : list (operation Handler)) bus :
  reachable bus → fresh_allocations ops bus → fresh_addresses ops bus.
Proof.
  revert bus. induction ops as [|op ops IH]; intros bus Hreach Hfresh;
    [exact I |].
  destruct Hfresh as [Hop Hrest]. split; [exact Hop |].
  destruct (reachable_invariant bus Hreach) as (Hq & Heq & _).
  destruct op as [p Event h | c]; cbn [run_operation] in *.
  - destruct Hop as (Hp & Hl & Hr).
    destruct (subscribe_quiescent p Event h bus Hq) as (bus1 & Hs & _).
    rewrite Hs in *. cbn [fmap option_fmap option_map snd] in *.
    apply IH; [| exact Hrest].
    exact (reachable_subscribe bus p Event h _ bus1 Hreach Hp Hl Hr Hs).
  - destruct (unsubscribe_quiescent c bus Hq) as (bus1 & Hu & _).
    rewrite Hu in *. apply IH; [| exact Hrest].
    exact (reachable_unsubscribe bus c bus1 Hreach Hu).
Qed.

(** X10 -- Whatever [subscribe] and [unsubscribe] calls are made on a new
    bus, each of them returns, given only that the allocator hands out
    addresses that are not null and not in use: nothing is assumed of a
    call but that the calls before it were made.  Afterwards the two
    copies of the subscriber table are equal, no two stored subscribers
    have the same identity, none has the identity 0, and every subscriber
    is stored under the type identity of the event type it was subscribed
    for. *)
Theorem operations_keep_tables_consistent (ops : list (operation Handler)) :
  fresh_allocations ops eventbus →
  ∃ bus,
    run_operations ops eventbus = Some bus ∧
    m_left bus = m_right bus ∧
    NoDup (identities (m_left bus)) ∧
    (0%Z ∉ identities (m_left bus)) ∧
    Forall (λ kv, kv.1 = typeid (model_E kv.2)) (m_left bus).
Proof.
  intros Hfresh.
  pose proof (fresh_allocations_addresses ops eventbus reachable_new Hfresh)
    as Hfresh'.
  destruct (run_operations_reachable ops eventbus reachable_new Hfresh')
    as (bus & Hrun & Hreach).
  destruct (reachable_invariant bus Hreach) as (_ & Heq & Hnodup & Hzero & Hkeys).
  exists bus. auto.
Qed.

Lemma emplace_at_split (n : nat) k sub subs :
  ∃ front back,
    subs = front ++ back ∧
    emplace_at n k sub subs = front ++ (k, sub) :: back.
Proof.
  revert n. induction subs as [|kv subs IH]; intros n; simpl.
  - exists [], []. split; reflexivity.
  - destruct (decide (kv.1 = k)).
    + destruct n as [|n].
      * exists [], (kv :: subs). split; reflexivity.
      * destruct (IH n) as (front & back & Hsubs & Hem).
        exists (kv :: front), back. rewrite Hem, Hsubs at 1.
        split; reflexivity.
    + destruct (IH n) as (front & back & Hsubs & Hem).
      exists (kv :: front), back. rewrite Hem, Hsubs at 1.
      split; reflexivity.
Qed.

(** X11 -- [subscribe] adds one record and touches no other: each copy of
    the table was [front ++ back] and becomes
    [front ++ (typeid E, new subscriber) :: back], so that every stored
    subscriber keeps its place relative to the others, wherever the
    container puts the new one. *)
Theorem subscribe_inserts_one_record bus (p : Z) E (h : Handler) :
  quiescent bus →
  ∃ bus',
    subscribe p E h bus = Some (Cookie p (typeid E), bus') ∧
    (∃ front back,
        m_left bus = front ++ back ∧
        m_left bus' = front ++ (typeid E, Subscriber p E h) :: back) ∧
    (∃ front back,
        m_right bus = front ++ back ∧
        m_right bus' = front ++ (typeid E, Subscriber p E h) :: back).
Proof.
  intros Hq.
  destruct (subscribe_quiescent p E h bus Hq) as (bus' & Hs & Hl & Hr & _).
  exists bus'. split; [exact Hs |].
  rewrite Hl, Hr. unfold emplace. split; apply emplace_at_split.
Qed.
End bus_facts.

(** * Properties of [scoped_subscription] *)

Section scoped_subscription_facts.
Context `{pf : Platform} {Handler : Type} {Event : class_type}.
Implicit Types (this other : scoped_subscription Event)
               (heap : list (basic_eventbus Handler))
               (bus : basic_eventbus Handler).

Lemma reset_quiescent this heap a bus :
  m_ebus this = Some a →
  heap !! a = Some bus →
  quiescent bus →
  ∃ bus',
    reset this heap = Some (<[a := bus']> heap) ∧
    m_left bus' = unsubscribe_functor (m_cookie this) (m_left bus) ∧
    m_right bus' = unsubscribe_functor (m_cookie this) (m_right bus) ∧
    quiescent bus'.
Proof.
  intros Ha Hbus Hq. unfold reset. rewrite Ha, Hbus. simpl.
  destruct (unsubscribe_quiescent (m_cookie this) bus Hq)
    as (bus' & Hu & Hl & Hr & Hq').
  exists bus'. rewrite Hu. auto.
Qed.

Lemma scoped_subscription_new_quiescent (a : nat) (p : Z) (h : Handler)
    heap bus :
  heap !! a = Some bus →
  quiescent bus →
  ∃ bus',
    scoped_subscription_new (Event := Event) a p h heap
    = Some ({| m_ebus := Some a; m_cookie := Cookie p (typeid Event) |},
            <[a := bus']> heap) ∧
    m_left bus' = emplace (typeid Event) (Subscriber p Event h) (m_left bus) ∧
    m_right bus' = emplace (typeid Event) (Subscriber p Event h) (m_right bus) ∧
    quiescent bus'.
Proof.
  intros Hbus Hq. unfold scoped_subscription_new. rewrite Hbus. simpl.
  destruct (subscribe_quiescent p Event h bus Hq)
    as (bus' & Hs & Hl & Hr & Hq').
  exists bus'. rewrite Hs. auto.
Qed.

Lemma unsubscribe_functor_emplace (p : Z) (h : Handler)
    (subs : subs_multimap Handler) :
  p ∉ identities subs →
  unsubscribe_functor (Cookie p (typeid Event))
    (emplace (typeid Event) (Subscriber p Event h) subs) = subs.
Proof.
  intros Hsubs. unfold emplace.
  apply (unsubscribe_functor_emplace_at _ _ (Subscriber p Event h)), Hsubs.
Qed.

Lemma unsubscribe_functor_absent (p : Z) (k : type_index)
    (subs : subs_multimap Handler) :
  p ∉ identities subs →
  unsubscribe_functor (Cookie p k) subs = subs.
Proof.
  intros Hsubs. apply unsubscribe_functor_no_match.
  apply Forall_forall. intros kv Hkv [_ Hid]. simpl in Hid.
  apply Hsubs. rewrite <- Hid.
  apply list_elem_of_fmap. exists kv. auto.
Qed.

(** X12 -- A [scoped_subscription] constructed on a bus subscribes its
    handler there, and its destructor takes exactly that subscription out
    again: the subscriber table of the bus is what it was before the
    object was made, and no other bus is touched. *)
Theorem scoped_subscription_round_trip (a : nat) (p : Z) (h : Handler)
    heap bus :
  heap !! a = Some bus →
  reachable bus →
  p ≠ 0%Z →
  p ∉ identities (m_left bus) →
  ∃ this heap1 bus1 heap2 bus2,
    scoped_subscription_new (Event := Event) a p h heap = Some (this, heap1) ∧
    heap1 !! a = Some bus1 ∧
    (typeid Event, Subscriber p Event h) ∈ m_left bus1 ∧
    scoped_subscription_destroy this heap1 = Some heap2 ∧
    heap2 !! a = Some bus2 ∧
    m_left bus2 = m_left bus ∧
    m_right bus2 = m_right bus ∧
    length heap2 = length heap ∧
    ∀ b, b ≠ a → heap2 !! b = heap !! b.
Proof.
  intros Hbus Hreach Hp Hfresh.
  destruct (reachable_invariant bus Hreach) as (Hq & Heq & _).
  pose proof (lookup_lt_Some _ _ _ Hbus) as Hlt.
  destruct (scoped_subscription_new_quiescent a p h heap bus Hbus Hq)
    as (bus1 & Hnew & Hl1 & Hr1 & Hq1).
  assert (Hbus1 : <[a := bus1]> heap !! a = Some bus1)
    by (apply list_lookup_insert_eq, Hlt).
  destruct (reset_quiescent
              {| m_ebus := Some a; m_cookie := Cookie p (typeid Event) |}
              (<[a := bus1]> heap) a bus1 eq_refl Hbus1 Hq1)
    as (bus2 & Hreset & Hl2 & Hr2 & _).
  eexists _, _, bus1, _, bus2.
  split; [exact Hnew |]. split; [exact Hbus1 |].
  split; [rewrite Hl1, emplace_Permutation; apply elem_of_cons; auto |].
  split; [exact Hreset |].
  split; [apply list_lookup_insert_eq; rewrite length_insert; exact Hlt |].
  split; [rewrite Hl2, Hl1; apply unsubscribe_functor_emplace, Hfresh |].
  split; [rewrite Hr2, Hr1, <- Heq; apply unsubscribe_functor_emplace, Hfresh |].
  split; [rewrite !length_insert; reflexivity |].
  intros b Hb. rewrite !list_lookup_insert_ne by congruence. reflexivity.
Qed.

(** X13 -- Moving a [scoped_subscription] hands the subscription over.
    The destructor of the object moved from does nothing, the destructor
    of the new object unsubscribes what the old one held, and destroying
    both, in either order, unsubscribes once.  Swapping with an empty
    [scoped_subscription] hands over in the same way. *)
Theorem scoped_subscription_move_transfers this heap a bus :
  m_ebus this = Some a →
  heap !! a = Some bus →
  quiescent bus →
  let target := (scoped_subscription_move this).1 in
  let source := (scoped_subscription_move this).2 in
  ∃ bus',
    m_left bus' = unsubscribe_functor (m_cookie this) (m_left bus) ∧
    m_right bus' = unsubscribe_functor (m_cookie this) (m_right bus) ∧
    scoped_subscription_destroy source heap = Some heap ∧
    scoped_subscription_destroy target heap = Some (<[a := bus']> heap) ∧
    scoped_subscription_destroy source heap
      ≫= scoped_subscription_destroy target = Some (<[a := bus']> heap) ∧
    scoped_subscription_destroy target heap
      ≫= scoped_subscription_destroy source = Some (<[a := bus']> heap) ∧
    scoped_subscription_destroy (swap this scoped_subscription_empty).1 heap
    = Some heap ∧
    scoped_subscription_destroy (swap this scoped_subscription_empty).2 heap
    = Some (<[a := bus']> heap).
Proof.
  intros Ha Hbus Hq target source.
  destruct (reset_quiescent this heap a bus Ha Hbus Hq)
    as (bus' & Hreset & Hl & Hr & _).
  assert (Htarget : scoped_subscription_destroy target heap
                    = Some (<[a := bus']> heap)).
  { rewrite <- Hreset. destruct this. reflexivity. }
  exists bus'.
  split; [exact Hl |]. split; [exact Hr |].
  split; [reflexivity |]. split; [exact Htarget |].
  split; [exact Htarget |].
  split; [rewrite Htarget; reflexivity |].
  split; [reflexivity |].
  rewrite <- Hreset. destruct this. reflexivity.
Qed.

(** X14 -- [reset] unsubscribes but keeps the pointer to the bus and the
    cookie, so the destructor unsubscribes with the same cookie once more.
    That changes nothing when the address of the freed subscriber has not
    been used again; when a later [subscribe] for the same event type on
    that bus was given the same address, the destructor takes that
    subscription out. *)
Theorem reset_keeps_bus_and_cookie (a : nat) (p : Z) (h h' : Handler)
    heap bus :
  heap !! a = Some bus →
  reachable bus →
  p ≠ 0%Z →
  p ∉ identities (m_left bus) →
  ∃ this heap1 heap2 bus2,
    scoped_subscription_new (Event := Event) a p h heap = Some (this, heap1) ∧
    reset this heap1 = Some heap2 ∧
    heap2 !! a = Some bus2 ∧
    m_left bus2 = m_left bus ∧
    m_right bus2 = m_right bus ∧
    (∃ heap3 bus3,
        scoped_subscription_destroy this heap2 = Some heap3 ∧
        heap3 !! a = Some bus3 ∧
        m_left bus3 = m_left bus ∧
        m_right bus3 = m_right bus) ∧
    (∃ c bus3 heap4 bus4,
        subscribe p Event h' bus2 = Some (c, bus3) ∧
        (typeid Event, Subscriber p Event h') ∈ m_left bus3 ∧
        scoped_subscription_destroy this (<[a := bus3]> heap2) = Some heap4 ∧
        heap4 !! a = Some bus4 ∧
        m_left bus4 = m_left bus ∧
        m_right bus4 = m_right bus).
Proof.
  intros Hbus Hreach Hp Hfresh.
  destruct (reachable_invariant bus Hreach) as (Hq & Heq & _).
  pose proof (lookup_lt_Some _ _ _ Hbus) as Hlt.
  assert (Hfresh_r : p ∉ identities (m_right bus))
    by (rewrite <- Heq; exact Hfresh).
  destruct (scoped_subscription_new_quiescent a p h heap bus Hbus Hq)
    as (bus1 & Hnew & Hl1 & Hr1 & Hq1).
  set (this := {| m_ebus := Some a; m_cookie := Cookie p (typeid Event) |})
    in *.
  assert (Hbus1 : <[a := bus1]> heap !! a = Some bus1)
    by (apply list_lookup_insert_eq, Hlt).
  destruct (reset_quiescent this _ a bus1 eq_refl Hbus1 Hq1)
    as (bus2 & Hreset & Hl2 & Hr2 & Hq2).
  assert (Hl2' : m_left bus2 = m_left bus)
    by (rewrite Hl2, Hl1; apply unsubscribe_functor_emplace, Hfresh).
  assert (Hr2' : m_right bus2 = m_right bus)
    by (rewrite Hr2, Hr1; apply unsubscribe_functor_emplace, Hfresh_r).
  set (heap2 := <[a := bus2]> (<[a := bus1]> heap)) in *.
  assert (Hlt2 : a < length heap2)
    by (subst heap2; rewrite !length_insert; exact Hlt).
  assert (Hbus2 : heap2 !! a = Some bus2)
    by (subst heap2; apply list_lookup_insert_eq; rewrite length_insert;
        exact Hlt).
  exists this, (<[a := bus1]> heap), heap2, bus2.
  split; [exact Hnew |]. split; [exact Hreset |]. split; [exact Hbus2 |].
  split; [exact Hl2' |]. split; [exact Hr2' |]. split.
  - destruct (reset_quiescent this heap2 a bus2 eq_refl Hbus2 Hq2)
      as (bus3 & Hreset3 & Hl3 & Hr3 & _).
    exists (<[a := bus3]> heap2), bus3.
    split; [exact Hreset3 |].
    split; [apply list_lookup_insert_eq, Hlt2 |].
    split.
    + rewrite Hl3, Hl2'. apply unsubscribe_functor_absent, Hfresh.
    + rewrite Hr3, Hr2'. apply unsubscribe_functor_absent, Hfresh_r.
  - destruct (subscribe_quiescent p Event h' bus2 Hq2)
      as (bus3 & Hs3 & Hl3 & Hr3 & Hq3).
    assert (Hbus3 : <[a := bus3]> heap2 !! a = Some bus3)
      by (apply list_lookup_insert_eq, Hlt2).
    destruct (reset_quiescent this _ a bus3 eq_refl Hbus3 Hq3)
      as (bus4 & Hreset4 & Hl4 & Hr4 & _).
    exists (Cookie p (typeid Event)), bus3, (<[a := bus4]> (<[a := bus3]> heap2)), bus4.
    split; [exact Hs3 |].
    split; [rewrite Hl3, emplace_Permutation; apply elem_of_cons; auto |].
    split; [exact Hreset4 |].
    split; [apply list_lookup_insert_eq; rewrite length_insert; exact Hlt2 |].
    split.
    + rewrite Hl4, Hl3, Hl2'. apply unsubscribe_functor_emplace, Hfresh.
    + rewrite Hr4, Hr3, Hr2'. apply unsubscribe_functor_emplace, Hfresh_r.
Qed.

Lemma reset_tables this heap :
  Forall quiescent heap →
  (∀ a, m_ebus this = Some a → a < length heap) →
  ∃ heap1,
    reset this heap = Some heap1 ∧
    Forall quiescent heap1 ∧
    length heap1 = length heap ∧
    ∀ b bus, heap !! b = Some bus →
      ∃ bus1,
        heap1 !! b = Some bus1 ∧
        m_left bus1
        = (if decide (m_ebus this = Some b)
           then unsubscribe_functor (m_cookie this) (m_left bus)
           else m_left bus) ∧
        m_right bus1
        = (if decide (m_ebus this = Some b)
           then unsubscribe_functor (m_cookie this) (m_right bus)
           else m_right bus).
Proof.
  intros Hheap Hlive.
  destruct (m_ebus this) as [a|] eqn:Ha.
  - destruct (lookup_lt_is_Some_2 heap a (Hlive a eq_refl)) as [busA HbusA].
    pose proof (proj1 (Forall_lookup _ _) Hheap a busA HbusA) as HqA.
    destruct (reset_quiescent this heap a busA Ha HbusA HqA)
      as (busA' & Hreset & Hl & Hr & HqA').
    exists (<[a := busA']> heap).
    split; [exact Hreset |].
    split; [apply Forall_insert; assumption |].
    split; [apply length_insert |].
    intros b bus Hb. destruct (decide (Some a = Some b)) as [Hab|Hab].
    + injection Hab as <-. rewrite HbusA in Hb. injection Hb as <-.
      exists busA'. split; [| auto].
      apply list_lookup_insert_eq, Hlive. reflexivity.
    + exists bus. split; [| auto].
      rewrite list_lookup_insert_ne by congruence. exact Hb.
  - exists heap. unfold reset. rewrite Ha.
    split; [reflexivity |]. split; [exact Hheap |]. split; [reflexivity |].
    intros b bus Hb. exists bus. rewrite decide_False by discriminate. auto.
Qed.

(** X15 -- [assign] is [reset] followed by [subscribe]: the bus that the
    object pointed to loses the record of the old cookie, then the bus
    given gains the new subscriber, and every other bus is left alone.
    The object then points to the bus given and holds the new cookie.
    The two buses may be the same one. *)
Theorem assign_unsubscribes_then_subscribes this (a : nat) (p : Z)
    (h : Handler) heap :
  Forall quiescent heap →
  (∀ a0, m_ebus this = Some a0 → a0 < length heap) →
  a < length heap →
  ∃ heap',
    assign this a p h heap
    = Some ({| m_ebus := Some a; m_cookie := Cookie p (typeid Event) |}, heap') ∧
    length heap' = length heap ∧
    ∀ b bus, heap !! b = Some bus →
      ∃ bus',
        heap' !! b = Some bus' ∧
        let released subs :=
          if decide (m_ebus this = Some b)
          then unsubscribe_functor (m_cookie this) subs else subs in
        let subscribed subs :=
          if decide (b = a)
          then emplace (typeid Event) (Subscriber p Event h) subs else subs in
        m_left bus' = subscribed (released (m_left bus)) ∧
        m_right bus' = subscribed (released (m_right bus)).
Proof.
  intros Hheap Hlive Ha.
  destruct (reset_tables this heap Hheap Hlive)
    as (heap1 & Hreset & Hheap1 & Hlen1 & Htables).
  assert (Ha1 : a < length heap1) by (rewrite Hlen1; exact Ha).
  destruct (lookup_lt_is_Some_2 heap1 a Ha1) as [bus1 Hbus1].
  pose proof (proj1 (Forall_lookup _ _) Hheap1 a bus1 Hbus1) as Hq1.
  destruct (subscribe_quiescent p Event h bus1 Hq1)
    as (bus2 & Hs & Hl2 & Hr2 & _).
  exists (<[a := bus2]> heap1).
  split.
  { unfold assign. rewrite Hreset. simpl. rewrite Hbus1. simpl.
    rewrite Hs. reflexivity. }
  split; [rewrite length_insert; exact Hlen1 |].
  intros b bus Hb.
  destruct (Htables b bus Hb) as (busb & Hbusb & Hlb & Hrb).
  destruct (decide (b = a)) as [->|Hba].
  - rewrite Hbus1 in Hbusb. injection Hbusb as <-.
    exists bus2. split; [apply list_lookup_insert_eq, Ha1 |].
    cbv zeta. rewrite Hl2, Hr2, Hlb, Hrb. split; reflexivity.
  - exists busb. split; [rewrite list_lookup_insert_ne by congruence; exact Hbusb |].
    cbv zeta. rewrite Hlb, Hrb. split; reflexivity.
Qed.
End scoped_subscription_facts.

(** * The sides of the Left-Right container, and dispatch without
      subscribers *)

Section side_facts.
Context {T R : Type} `{RR : ReaderRegistry R} `{!ReaderRegistryLaws R}.

(** X16 -- Each [modify] changes the side that readers are sent to and the
    registry that they arrive at, and leaves the registries themselves as
    they were; a second [modify] changes both back. *)
Theorem modify_flips_side {A B : Type} (f : functor T A) (g : functor T B)
    (s : basic_leftright T R) :
  quiescent s →
  ∃ a s1 b s2,
    modify f s = Some (a, s1) ∧
    modify g s1 = Some (b, s2) ∧
    m_leftright s1 ≠ m_leftright s ∧
    m_registry_index s1 ≠ m_registry_index s ∧
    m_reader_registries s1 = m_reader_registries s ∧
    m_leftright s2 = m_leftright s ∧
    m_registry_index s2 = m_registry_index s ∧
    m_reader_registries s2 = m_reader_registries s.
Proof.
  intros Hq.
  pose proof (modify_quiescent f s Hq) as Hf. cbv zeta in Hf.
  destruct (modify_preserves f s Hq) as (a & s1 & Hf1 & Hq1 & _).
  pose proof (modify_quiescent g s1 Hq1) as Hg. cbv zeta in Hg.
  rewrite Hf in Hf1. injection Hf1 as Ha Hs1.
  eexists _, _, _, _.
  split; [exact Hf |]. split; [rewrite Hs1; exact Hg |].
  destruct Hq as (_ & _ & Hidx). rewrite <- Hs1. simpl.
  assert (Hcases : m_registry_index s = 0 ∨ m_registry_index s = 1) by lia.
  split; [destruct (m_leftright s); discriminate |].
  split; [destruct Hcases as [-> | ->]; discriminate |].
  split; [reflexivity |].
  split; [destruct (m_leftright s); reflexivity |].
  split; [destruct Hcases as [-> | ->]; reflexivity | reflexivity].
Qed.
End side_facts.

Section missing_key_facts.
Context `{pf : Platform} {Handler : Type}.

(** X17 -- When no subscriber is stored under any type identity of the
    chain of the published type, [publish] calls no handler, whatever is
    stored under other keys; it still returns. *)
Theorem publish_without_subscribers (bus : basic_eventbus Handler) Event e
    chain :
  dispatch_chain Event = Some chain →
  (∀ k sub, (k, sub) ∈ active_copy bus → k ∉ chain) →
  ∃ bus', publish Event e bus = Some ([], bus').
Proof.
  intros Hchain Hnone. eexists.
  rewrite (publish_calls Event e bus chain Hchain). f_equal. f_equal.
  apply elem_of_nil_inv. intros sub Hsub.
  apply elem_of_chain_takers in Hsub as (k & Hk & Hin & _).
  exact (Hnone k sub Hin Hk).
Qed.
End missing_key_facts.

(** * The further properties at concrete inputs *)

Section further_on_libcxx.
Local Existing Instance libcxx.

Lemma uint_fast32_bits_nonneg : (0 ≤ uint_fast32_bits)%Z.
Proof. by_decide. Qed.

Lemma uint_fast32_bits_pos : (0 < uint_fast32_bits)%Z.
Proof. by_decide. Qed.

Lemma scenario_bus_quiescent : quiescent scenario_bus.
Proof. apply (reachable_invariant _ scenario_bus_reachable). Qed.

Lemma eventbus_quiescent : quiescent (eventbus (Handler := string)).
Proof. apply eventbus_invariant. Qed.

Lemma atomic_registry_empty_iff_balanced_witness :
  (0 ≤ uint_fast32_bits)%Z ∧
  m_count (registry_run [step_arrive; step_arrive; step_depart]
             (registry_init : atomic_reader_registry)) = 1%Z ∧
  empty (registry_run [step_arrive; step_arrive; step_depart]
           (registry_init : atomic_reader_registry)) = false.
Proof.
  split; [exact uint_fast32_bits_nonneg |].
  destruct (atomic_registry_empty_iff_balanced
              [step_arrive; step_arrive; step_depart] uint_fast32_bits_nonneg)
    as (Hcount & _ & _ & Hpos).
  split; [rewrite Hcount; reflexivity |].
  apply Hpos. vm_compute. split; reflexivity.
Defined.

Lemma distributed_registry_one_counter_witness :
  0 < 4 ∧
  (0 ≤ uint_fast32_bits)%Z ∧
  m_counters (registry_run [step_arrive; step_arrive; step_depart]
                (registry_init : distributed_atomic_reader_registry 4))
  = [Counter 0; Counter 0; Counter 0; Counter 1] ∧
  empty (registry_run [step_arrive; step_depart]
           (registry_init : distributed_atomic_reader_registry 4)) = true.
Proof.
  assert (H4 : 0 < 4) by lia.
  split; [exact H4 |]. split; [exact uint_fast32_bits_nonneg |].
  destruct (distributed_registry_one_counter 4
              [step_arrive; step_arrive; step_depart] H4
              uint_fast32_bits_nonneg) as (Hcounters & _).
  split; [rewrite Hcounters; reflexivity |].
  apply (distributed_registry_one_counter 4 [step_arrive; step_depart] H4
           uint_fast32_bits_nonneg).
  reflexivity.
Defined.

Lemma modify_returns_iff_no_reader_witness :
  length (m_reader_registries (construct [1] : leftright (list nat))) = 2 ∧
  m_registry_index (construct [1] : leftright (list nat)) < 2 ∧
  is_Some (modify push_seven (construct [1] : leftright (list nat))) ∧
  ¬ is_Some (modify (stateless (λ n : nat, (S n, tt))) busy_container).
Proof.
  split; [reflexivity |]. split; [simpl; lia |]. split.
  - apply (modify_returns_iff_no_reader push_seven
             (construct [1] : leftright (list nat)) eq_refl).
    + simpl. lia.
    + repeat constructor.
  - intros Hsome.
    apply (modify_returns_iff_no_reader (stateless (λ n : nat, (S n, tt)))
             busy_container eq_refl) in Hsome; [| simpl; lia].
    apply Forall_cons in Hsome as [Hfirst _]. discriminate Hfirst.
Defined.

Lemma modify_inside_observe_never_returns_witness :
  (0 < uint_fast32_bits)%Z ∧
  quiescent (construct [1] : leftright (list nat)) ∧
  modify push_seven
    (scoped_read_indication
       (m_registry_index (construct [1] : leftright (list nat)))
       (construct [1] : leftright (list nat))) = None.
Proof.
  split; [exact uint_fast32_bits_pos |].
  split; [apply construct_quiescent |].
  apply (modify_inside_observe_never_returns push_seven (construct [1])
           uint_fast32_bits_pos).
  apply construct_quiescent.
Defined.

Lemma observe_reads_what_modify_wrote_witness :
  quiescent (construct [1] : leftright (list nat)) ∧
  m_left (construct [1] : leftright (list nat))
  = m_right (construct [1] : leftright (list nat)) ∧
  ∃ s' : leftright (list nat),
    modify (stateless (λ l, (7 :: l, length l))) (construct [1])
    = Some (1, s') ∧
    (observe (λ t s0, (returned (length t), s0)) s').1 = returned 2.
Proof.
  split; [apply construct_quiescent |]. split; [reflexivity |].
  destruct (observe_reads_what_modify_wrote
              (λ l : list nat, (7 :: l, length l))
              (construct [1] : leftright (list nat))
              (construct_quiescent [1]) eq_refl) as (s' & Hm & Hobs).
  exists s'. split; [exact Hm |]. exact (Hobs nat length).
Defined.

Lemma publish_leaves_bus_witness :
  (0 ≤ uint_fast32_bits)%Z ∧
  quiescent scenario_bus ∧
  dispatch_chain derived_event
  = Some [ti_class "derived_event"; ti_class "base_event"] ∧
  ∃ w bus',
    publish derived_event (Object derived_event) scenario_bus = Some (w, bus') ∧
    m_left bus' = m_left scenario_bus ∧
    m_reader_registries bus' = m_reader_registries scenario_bus ∧
    is_Some (subscribe 300 base_event "H_B2" bus').
Proof.
  split; [exact uint_fast32_bits_nonneg |].
  split; [exact scenario_bus_quiescent |]. split; [reflexivity |].
  destruct (publish_leaves_bus scenario_bus derived_event
              (Object derived_event)
              [ti_class "derived_event"; ti_class "base_event"]
              uint_fast32_bits_nonneg scenario_bus_quiescent eq_refl)
    as (w & bus' & Hpub & Hl & _ & _ & _ & Hregs & Hsub & _).
  exists w, bus'. split; [exact Hpub |]. split; [exact Hl |].
  split; [exact Hregs |]. apply Hsub.
Defined.

Lemma subscribe_then_publish_witness :
  reachable scenario_bus ∧
  300%Z ≠ 0%Z ∧
  (300%Z ∉ identities (m_left scenario_bus)) ∧
  dispatch_chain derived_event
  = Some [ti_class "derived_event"; ti_class "base_event"] ∧
  ∃ bus1 w bus2,
    subscribe 300 derived_event "H_D2" scenario_bus
    = Some (Cookie 300 (ti_class "derived_event"), bus1) ∧
    publish derived_event (Object derived_event) bus1 = Some (w, bus2) ∧
    times_called 300 w = 1 ∧
    times_called 100 w = 1.
Proof.
  assert (Hp : 300%Z ≠ 0%Z) by by_decide.
  assert (Hfresh : 300%Z ∉ identities (m_left scenario_bus)) by by_decide.
  split; [exact scenario_bus_reachable |]. split; [exact Hp |].
  split; [exact Hfresh |]. split; [reflexivity |].
  destruct (subscribe_then_publish scenario_bus 300 derived_event "H_D2"
              (Object derived_event)
              [ti_class "derived_event"; ti_class "base_event"]
              scenario_bus_reachable Hp Hfresh eq_refl)
    as (bus1 & w & bus2 & w0 & bus0 & Hs & Hpub & Hpub0 & _ & Hnew & _ & Hold).
  exists bus1, w, bus2. split; [exact Hs |]. split; [exact Hpub |].
  split; [rewrite Hnew; reflexivity |].
  assert (Hin : (ti_class "base_event", Subscriber 100 base_event "H_B")
                ∈ m_left scenario_bus).
  { replace (m_left scenario_bus)
      with [(ti_class "base_event", Subscriber 100 base_event "H_B");
            (ti_class "derived_event", Subscriber 200 derived_event "H_D")]
      by reflexivity.
    apply elem_of_cons. left. reflexivity. }
  change (times_called 100 w)
    with (times_called (subscriber_id (Subscriber 100 base_event "H_B")) w).
  rewrite (Hold _ _ Hin).
  vm_compute in Hpub0. injection Hpub0 as <- _. reflexivity.
Defined.

Lemma derived_event_extends_chain_witness :
  dispatch_as base_event
  = Some (typelist_cons (ti_class "base_event") null_t) ∧
  dispatch_chain derived_event
  = Some [ti_class "derived_event"; ti_class "base_event"] ∧
  ∃ w_base bus_base bus_derived,
    publish base_event (Object derived_event) scenario_bus
    = Some (w_base, bus_base) ∧
    publish derived_event (Object derived_event) scenario_bus
    = Some (Subscriber 200 derived_event "H_D" :: w_base, bus_derived).
Proof.
  split; [reflexivity |].
  destruct (derived_event_extends_chain (Handler := string)
              "derived_event" base_event
              (ti_class "base_event") null_t eq_refl)
    as (Hchain & _ & Hpub).
  split; [exact Hchain |].
  exact (Hpub eq_refl scenario_bus (Object derived_event)).
Defined.

Lemma stale_cookie_removes_new_subscription_witness :
  reachable scenario_bus ∧
  300%Z ≠ 0%Z ∧
  (300%Z ∉ identities (m_left scenario_bus)) ∧
  ∃ c bus1 bus2 bus3 bus4,
    subscribe 300 base_event "first" scenario_bus = Some (c, bus1) ∧
    unsubscribe c bus1 = Some bus2 ∧
    subscribe 300 base_event "second" bus2 = Some (c, bus3) ∧
    (ti_class "base_event", Subscriber 300 base_event "second") ∈ m_left bus3 ∧
    unsubscribe c bus3 = Some bus4 ∧
    m_left bus4 = m_left scenario_bus.
Proof.
  assert (Hp : 300%Z ≠ 0%Z) by by_decide.
  assert (Hfresh : 300%Z ∉ identities (m_left scenario_bus)) by by_decide.
  split; [exact scenario_bus_reachable |]. split; [exact Hp |].
  split; [exact Hfresh |].
  destruct (stale_cookie_removes_new_subscription scenario_bus 300 base_event
              "first" "second" scenario_bus_reachable Hp Hfresh)
    as (c & bus1 & bus2 & c' & bus3 & bus4
        & Hs1 & Hu2 & _ & _ & Hs3 & -> & Hin & Hu4 & Hl & _).
  exists c, bus1, bus2, bus3, bus4.
  split; [exact Hs1 |]. split; [exact Hu2 |]. split; [exact Hs3 |].
  split; [exact Hin |]. split; [exact Hu4 | exact Hl].
Defined.

Lemma operations_keep_tables_consistent_witness :
  fresh_allocations scenario_ops eventbus ∧
  ∃ bus,
    run_operations scenario_ops eventbus = Some bus ∧
    m_left bus = m_right bus ∧
    NoDup (identities (m_left bus)).
Proof.
  assert (Hfresh : fresh_allocations scenario_ops eventbus) by fresh_run.
  split; [exact Hfresh |].
  destruct (operations_keep_tables_consistent scenario_ops Hfresh)
    as (bus & Hrun & Heq & Hnodup & _).
  exists bus. auto.
Defined.

Lemma subscribe_inserts_one_record_witness :
  quiescent scenario_bus ∧
  ∃ bus' front back,
    subscribe 300 base_event "H_B2" scenario_bus
    = Some (Cookie 300 (ti_class "base_event"), bus') ∧
    m_left scenario_bus = front ++ back ∧
    m_left bus'
    = front ++ (ti_class "base_event", Subscriber 300 base_event "H_B2") :: back.
Proof.
  split; [exact scenario_bus_quiescent |].
  destruct (subscribe_inserts_one_record scenario_bus 300 base_event "H_B2"
              scenario_bus_quiescent)
    as (bus' & Hs & (front & back & Hbefore & Hafter) & _).
  exists bus', front, back. auto.
Defined.

Lemma scoped_subscription_round_trip_witness :
  [eventbus; scenario_bus] !! 1 = Some scenario_bus ∧
  reachable scenario_bus ∧
  300%Z ≠ 0%Z ∧
  (300%Z ∉ identities (m_left scenario_bus)) ∧
  ∃ (this : scoped_subscription base_event) heap1 heap2 bus2,
    scoped_subscription_new 1 300 "H_B2" [eventbus; scenario_bus]
    = Some (this, heap1) ∧
    scoped_subscription_destroy this heap1 = Some heap2 ∧
    heap2 !! 1 = Some bus2 ∧
    m_left bus2 = m_left scenario_bus ∧
    heap2 !! 0 = Some eventbus.
Proof.
  assert (Hp : 300%Z ≠ 0%Z) by by_decide.
  assert (Hfresh : 300%Z ∉ identities (m_left scenario_bus)) by by_decide.
  split; [reflexivity |]. split; [exact scenario_bus_reachable |].
  split; [exact Hp |]. split; [exact Hfresh |].
  destruct (scoped_subscription_round_trip (Event := base_event) 1 300 "H_B2"
              [eventbus; scenario_bus] scenario_bus eq_refl
              scenario_bus_reachable Hp Hfresh)
    as (this & heap1 & bus1 & heap2 & bus2
        & Hnew & _ & _ & Hdestroy & Hbus2 & Hl & _ & _ & Hothers).
  exists this, heap1, heap2, bus2.
  split; [exact Hnew |]. split; [exact Hdestroy |]. split; [exact Hbus2 |].
  split; [exact Hl |]. rewrite Hothers by discriminate. reflexivity.
Defined.

Lemma scoped_subscription_move_transfers_witness :
  m_ebus (ScopedSubscription (Event := base_event) (Some 0)
            (Cookie 100 (ti_class "base_event"))) = Some 0 ∧
  [scenario_bus] !! 0 = Some scenario_bus ∧
  quiescent scenario_bus ∧
  ∃ bus',
    identities (m_left bus') = [200%Z] ∧
    scoped_subscription_destroy
      (scoped_subscription_move
         (ScopedSubscription (Event := base_event) (Some 0)
            (Cookie 100 (ti_class "base_event")))).2 [scenario_bus]
    = Some [scenario_bus] ∧
    scoped_subscription_destroy
      (scoped_subscription_move
         (ScopedSubscription (Event := base_event) (Some 0)
            (Cookie 100 (ti_class "base_event")))).1 [scenario_bus]
    = Some [bus'].
Proof.
  split; [reflexivity |]. split; [reflexivity |].
  split; [exact scenario_bus_quiescent |].
  destruct (scoped_subscription_move_transfers
              (ScopedSubscription (Event := base_event) (Some 0)
                 (Cookie 100 (ti_class "base_event")))
              [scenario_bus] 0 scenario_bus eq_refl eq_refl
              scenario_bus_quiescent)
    as (bus' & Hl & _ & Hsource & Htarget & _).
  exists bus'. split; [rewrite Hl; reflexivity |].
  split; [exact Hsource | exact Htarget].
Defined.

Lemma reset_keeps_bus_and_cookie_witness :
  [eventbus; scenario_bus] !! 1 = Some scenario_bus ∧
  reachable scenario_bus ∧
  300%Z ≠ 0%Z ∧
  (300%Z ∉ identities (m_left scenario_bus)) ∧
  ∃ (this : scoped_subscription base_event) heap1 heap2 bus2,
    scoped_subscription_new 1 300 "mine" [eventbus; scenario_bus]
    = Some (this, heap1) ∧
    reset this heap1 = Some heap2 ∧
    heap2 !! 1 = Some bus2 ∧
    ∃ c bus3 heap4 bus4,
      subscribe 300 base_event "theirs" bus2 = Some (c, bus3) ∧
      (ti_class "base_event", Subscriber 300 base_event "theirs")
        ∈ m_left bus3 ∧
      scoped_subscription_destroy this (<[1 := bus3]> heap2) = Some heap4 ∧
      heap4 !! 1 = Some bus4 ∧
      m_left bus4 = m_left scenario_bus.
Proof.
  assert (Hp : 300%Z ≠ 0%Z) by by_decide.
  assert (Hfresh : 300%Z ∉ identities (m_left scenario_bus)) by by_decide.
  split; [reflexivity |]. split; [exact scenario_bus_reachable |].
  split; [exact Hp |]. split; [exact Hfresh |].
  destruct (reset_keeps_bus_and_cookie (Event := base_event) 1 300
              "mine" "theirs" [eventbus; scenario_bus] scenario_bus eq_refl
              scenario_bus_reachable Hp Hfresh)
    as (this & heap1 & heap2 & bus2 & Hnew & Hreset & Hbus2 & _ & _ & _
        & (c & bus3 & heap4 & bus4 & Hs & Hin & Hdestroy & Hbus4 & Hl & _)).
  exists this, heap1, heap2, bus2.
  split; [exact Hnew |]. split; [exact Hreset |]. split; [exact Hbus2 |].
  exists c, bus3, heap4, bus4. auto.
Defined.

Lemma assign_unsubscribes_then_subscribes_witness :
  Forall quiescent [scenario_bus; eventbus] ∧
  (∀ a0,
     m_ebus (ScopedSubscription (Event := base_event) (Some 0)
               (Cookie 100 (ti_class "base_event"))) = Some a0 →
     a0 < length [scenario_bus; eventbus]) ∧
  1 < length [scenario_bus; eventbus] ∧
  ∃ heap' bus0 bus1,
    assign (ScopedSubscription (Event := base_event) (Some 0)
              (Cookie 100 (ti_class "base_event")))
      1 300 "H_B2" [scenario_bus; eventbus]
    = Some (ScopedSubscription (Some 1) (Cookie 300 (ti_class "base_event")),
            heap') ∧
    heap' !! 0 = Some bus0 ∧
    identities (m_left bus0) = [200%Z] ∧
    heap' !! 1 = Some bus1 ∧
    identities (m_left bus1) = [300%Z].
Proof.
  assert (Hheap : Forall quiescent [scenario_bus; eventbus])
    by (constructor; [exact scenario_bus_quiescent |];
        constructor; [exact eventbus_quiescent | constructor]).
  assert (Hlive : ∀ a0,
             m_ebus (ScopedSubscription (Event := base_event) (Some 0)
                       (Cookie 100 (ti_class "base_event"))) = Some a0 →
             a0 < length [scenario_bus; eventbus])
    by (intros a0 [= <-]; simpl; lia).
  assert (Ha : 1 < length [scenario_bus; eventbus]) by (simpl; lia).
  split; [exact Hheap |]. split; [exact Hlive |]. split; [exact Ha |].
  destruct (assign_unsubscribes_then_subscribes
              (ScopedSubscription (Event := base_event) (Some 0)
                 (Cookie 100 (ti_class "base_event")))
              1 300 "H_B2" [scenario_bus; eventbus] Hheap Hlive Ha)
    as (heap' & Hassign & _ & Htables).
  destruct (Htables 0 scenario_bus eq_refl) as (bus0 & Hbus0 & Hl0 & _).
  destruct (Htables 1 eventbus eq_refl) as (bus1 & Hbus1 & Hl1 & _).
  exists heap', bus0, bus1.
  split; [exact Hassign |]. split; [exact Hbus0 |].
  split; [rewrite Hl0; reflexivity |]. split; [exact Hbus1 |].
  rewrite Hl1. reflexivity.
Defined.

Lemma modify_flips_side_witness :
  quiescent (construct [1] : leftright (list nat)) ∧
  ∃ (s1 s2 : leftright (list nat)),
    modify push_seven (construct [1]) = Some (tt, s1) ∧
    modify push_seven s1 = Some (tt, s2) ∧
    m_leftright s1 ≠ read_left ∧
    m_leftright s2 = read_left ∧
    m_registry_index s2 = 0.
Proof.
  split; [apply construct_quiescent |].
  destruct (modify_flips_side push_seven push_seven
              (construct [1] : leftright (list nat))
              (construct_quiescent [1]))
    as ([] & s1 & [] & s2 & Hf & Hg & Hside1 & _ & _ & Hside2 & Hidx2 & _).
  exists s1, s2. auto.
Defined.

Lemma publish_without_subscribers_witness :
  dispatch_chain non_polymorphic_event
  = Some [ti_adapted_event (ti_class "non_polymorphic_event");
          ti_class "non_polymorphic_event"] ∧
  (∀ k sub, (k, sub) ∈ active_copy scenario_bus →
     k ∉ [ti_adapted_event (ti_class "non_polymorphic_event");
          ti_class "non_polymorphic_event"]) ∧
  ∃ bus',
    publish non_polymorphic_event (Object non_polymorphic_event) scenario_bus
    = Some ([], bus').
Proof.
  assert (Hnone : ∀ k (sub : type_erased_subscriber string),
             (k, sub) ∈ active_copy scenario_bus →
             k ∉ [ti_adapted_event (ti_class "non_polymorphic_event");
                  ti_class "non_polymorphic_event"]).
  { assert (Hall : Forall
                     (λ kv : type_index * type_erased_subscriber string,
                        kv.1 ∉ [ti_adapted_event
                                  (ti_class "non_polymorphic_event");
                                ti_class "non_polymorphic_event"])
                     (active_copy scenario_bus))
      by (repeat constructor; by_decide).
    intros k sub Hin.
    exact (proj1 (Forall_forall _ _) Hall (k, sub) Hin). }
  split; [reflexivity |]. split; [exact Hnone |].
  apply (publish_without_subscribers scenario_bus non_polymorphic_event
           (Object non_polymorphic_event) _ eq_refl Hnone).
Defined.
End further_on_libcxx.
